(** * TreeSitter: the buffer-to-tree cache of [main.py]

    A shallow embedding of the part of [main.py] that caches syntax trees by
    buffer id and keeps the cache up to date as lifecycle and text-change
    callbacks arrive, followed by the properties of that code.

    The two module-level dictionaries [SCOPE_TO_LANGUAGE] and
    [BUFFER_ID_TO_TREE] are finite maps held in an explicit [World] that
    every function takes and returns.  The monotonic clock and the host's
    [window.run_command] are the two external effects: the clock is an
    oracle indexed by the number of readings taken so far, and the commands
    run are appended to a chronological trace. *)

From Stdlib Require Import ZArith Lia.
From stdpp Require Import gmap strings list fin_maps.

Open Scope Z_scope.

(** ** Data model *)

(** [utils.ScopeType]: the scope of a syntax, a string. *)
Abbreviation ScopeType := string.

(** [tree_sitter.Language(path, name)].  The path is
    [BUILD_PATH / get_so_file(name)], so the name determines the object. *)
Record Language := mkLanguage { language_name : string }.

#[global] Instance Language_eq_dec : EqDecision Language.
Proof. solve_decision. Defined.

(** [tree_sitter.Tree].  The parser of py-tree-sitter is outside this
    repository; a tree is represented by what determines it, the grammar the
    parser was bound to and the text it was given. *)
Record Tree := mkTree { tree_language : Language; tree_source : string }.

#[global] Instance Tree_eq_dec : EqDecision Tree.
Proof. solve_decision. Defined.

(** [class TreeDict(TypedDict)]: [tree] and [updated_s].  The float returned
    by [time.monotonic()] is only stored and compared; it is an integer
    number of clock ticks here. *)
Record TreeDict := mkTreeDict { tree : Tree; updated_s : Z }.

#[global] Instance TreeDict_eq_dec : EqDecision TreeDict.
Proof. solve_decision. Defined.

(** [sublime.Window]; only its identity matters.  In the host's API a window
    object is false exactly when its id is 0. *)
Record Window := mkWindow { window_id : Z }.

#[global] Instance Window_eq_dec : EqDecision Window.
Proof. solve_decision. Defined.

(** Truth value of a [sublime.Window | None], as tested by [if not window]. *)
Definition window_truthy (window : option Window) : bool :=
  match window with
  | None => false
  | Some win => negb (window_id win =? 0)
  end.

(** What the code reads from a [sublime.View]: [view.buffer().id()],
    [view.syntax()] (its scope, or [None] when the view has no syntax),
    [view.substr(sublime.Region(0, view.size()))] and [view.window()]. *)
Record View := mkView {
  view_buffer_id : Z;
  view_syntax : option ScopeType;
  view_text : string;
  view_window : option Window
}.

(** [sublime.TextChange]: the region [a, b) of the old text that was
    replaced, and the text [str] put in its place. *)
Record TextChange := mkTextChange {
  change_a : nat;
  change_b : nat;
  change_str : string
}.

(** The arguments of [window.run_command("tree_sitter_update_tree", ...)]:
    a [buffer_id] and a [scope], nothing else. *)
Record UpdateTreeArgs := mkUpdateTreeArgs {
  arg_buffer_id : Z;
  arg_scope : string
}.

#[global] Instance UpdateTreeArgs_eq_dec : EqDecision UpdateTreeArgs.
Proof. solve_decision. Defined.

(** The observable history.  [RanCommand] is the call of
    [window.run_command]; [Wrote] records an assignment
    [BUFFER_ID_TO_TREE[buffer_id] = d], so that writes and notifications can
    be counted and ordered. *)
Inductive effect :=
  | Wrote (buffer_id : Z) (d : TreeDict)
  | RanCommand (window : Window) (args : UpdateTreeArgs).

#[global] Instance effect_eq_dec : EqDecision effect.
Proof. solve_decision. Defined.

(** The module state: the two dictionaries, the number of readings of
    [time.monotonic()] taken so far, and the history, oldest first. *)
Record World := mkWorld {
  SCOPE_TO_LANGUAGE : gmap ScopeType Language;
  BUFFER_ID_TO_TREE : gmap Z TreeDict;
  clock : nat;
  trace : list effect
}.

Definition MAX_CACHED_TREES : nat := 32.

(** ** Tables of [src/utils.py] *)

Definition LANGUAGE_NAME_TO_SCOPES : list (string * list ScopeType) :=
  [ ("python", ["source.python"]);
    ("typescript", ["source.ts"]);
    ("tsx", ["source.tsx"]);
    ("javascript", ["source.js"; "source.jsx"]);
    ("css", ["source.css"]);
    ("scss", ["source.scss"]);
    ("go", ["source.go"]);
    ("rust", ["source.rust"]);
    ("lua", ["source.lua"]);
    ("ruby", ["source.ruby"]);
    ("java", ["source.java"]);
    ("php", ["source.php"]);
    ("zig", ["source.zig"]);
    ("c", ["source.c"]);
    ("cpp", ["source.c++"]);
    ("c_sharp", ["source.cs"]);
    ("scala", ["source.scala"]);
    ("kotlin", ["source.Kotlin"]);
    ("julia", ["source.julia"]);
    ("haskell", ["source.haskell"]);
    ("clojure", ["source.clojure"]);
    ("elixir", ["source.elixir"]);
    ("toml", ["source.toml"]);
    ("yaml", ["source.yaml"]);
    ("json", ["source.json"]);
    ("bash", ["source.shell"]);
    ("query", ["source.scheme"]);
    ("vue", ["text.html.vue"]);
    ("svelte", ["text.html.svelte"]);
    ("sql", ["source.sql"]);
    ("html", ["text.html.basic"; "text.xml"]);
    ("markdown", ["text.html.markdown"]) ].

(** Lookup in a dictionary literal, by key. *)
Fixpoint assoc {A : Type} (k : string) (l : list (string * A)) : option A :=
  match l with
  | [] => None
  | (k', v) :: l' => if decide (k = k') then Some v else assoc k l'
  end.

(** ** Languages *)

Definition get_so_file (language_name : string) : string :=
  ("language-" ++ language_name ++ ".so")%string.

(** The body of the loop of [instantiate_languages] for one [name]: the two
    [continue] guards, then one assignment per scope of the language. *)
Definition instantiate_language (files : list string) (name : string)
    (reg : gmap ScopeType Language) : gmap ScopeType Language :=
  match assoc name LANGUAGE_NAME_TO_SCOPES with
  | None => reg
  | Some scopes =>
      if decide (get_so_file name ∈ files)
      then foldl (fun r scope => <[scope := mkLanguage name]> r) reg scopes
      else reg
  end.

(** [instantiate_languages()].  [language_names] is the [installed_languages]
    setting and [files] the listing of [BUILD_PATH], both read from outside.
    The loop runs over [set(language_names)]: every name once. *)
Definition instantiate_languages (language_names files : list string)
    (w : World) : World :=
  mkWorld
    (foldl (fun r name => instantiate_language files name r)
       (SCOPE_TO_LANGUAGE w) (remove_dups language_names))
    (BUFFER_ID_TO_TREE w) (clock w) (trace w).

(** ** Cloning and building

    [class RepoDict(TypedDict)] of [src/utils.py]: [repo], and the optional
    [branch] and [parser_path]. *)
Record RepoDict := mkRepoDict {
  repo : string;
  branch : option string;
  parser_path : option string
}.

(** [LANGUAGE_NAME_TO_REPO] of [src/utils.py]: its values are dictionaries. *)
Definition LANGUAGE_NAME_TO_REPO : list (string * RepoDict) :=
  [ ("python", mkRepoDict "tree-sitter/tree-sitter-python" None None);
    ("typescript",
     mkRepoDict "tree-sitter/tree-sitter-typescript" None (Some "typescript"));
    ("tsx", mkRepoDict "tree-sitter/tree-sitter-typescript" None (Some "tsx"));
    ("javascript", mkRepoDict "tree-sitter/tree-sitter-javascript" None None);
    ("css", mkRepoDict "tree-sitter/tree-sitter-css" None None);
    ("scss", mkRepoDict "serenadeai/tree-sitter-scss" None None);
    ("go", mkRepoDict "tree-sitter/tree-sitter-go" None None);
    ("rust", mkRepoDict "tree-sitter/tree-sitter-rust" None None);
    ("lua", mkRepoDict "MunifTanjim/tree-sitter-lua" None None);
    ("ruby", mkRepoDict "tree-sitter/tree-sitter-ruby" None None);
    ("java", mkRepoDict "tree-sitter/tree-sitter-java" None None);
    ("php", mkRepoDict "tree-sitter/tree-sitter-php" None None);
    ("zig", mkRepoDict "maxxnino/tree-sitter-zig" None None);
    ("c", mkRepoDict "tree-sitter/tree-sitter-c" None None);
    ("cpp", mkRepoDict "tree-sitter/tree-sitter-cpp" None None);
    ("c_sharp", mkRepoDict "tree-sitter/tree-sitter-c-sharp" None None);
    ("scala", mkRepoDict "tree-sitter/tree-sitter-scala" None None);
    ("toml", mkRepoDict "ikatyang/tree-sitter-toml" None None);
    ("yaml", mkRepoDict "ikatyang/tree-sitter-yaml" None None);
    ("json", mkRepoDict "tree-sitter/tree-sitter-json" None None);
    ("bash", mkRepoDict "tree-sitter/tree-sitter-bash" None None);
    ("vue", mkRepoDict "ikatyang/tree-sitter-vue" None None);
    ("svelte", mkRepoDict "Himujjal/tree-sitter-svelte" None None);
    ("html", mkRepoDict "tree-sitter/tree-sitter-html" None None);
    ("markdown", mkRepoDict "ikatyang/tree-sitter-markdown" None None);
    ("kotlin", mkRepoDict "fwcd/tree-sitter-kotlin" None None);
    ("julia", mkRepoDict "tree-sitter/tree-sitter-julia" None None);
    ("haskell", mkRepoDict "tree-sitter/tree-sitter-haskell" None None);
    ("clojure", mkRepoDict "sogaiu/tree-sitter-clojure" None None);
    ("elixir", mkRepoDict "elixir-lang/tree-sitter-elixir" None None);
    ("query", mkRepoDict "nvim-treesitter/tree-sitter-query" None None);
    ("sql", mkRepoDict "DerekStride/tree-sitter-sql" (Some "gh-pages") None) ].

(** What [load_languages] reads from outside the module: the three listings
    of [BUILD_PATH] that [clone_languages], [build_languages] and
    [instantiate_languages] take with [os.listdir], each [None] when the
    call raises; whether the build subprocess for a [.so] file and a path
    exits with status 0 ([subprocess.run(..., check=True)] raises
    otherwise); and the table [LANGUAGE_NAME_TO_PATH], which [main.py]
    imports and [src/utils.py] does not define, taken as given. *)
Record Provisioning := mkProvisioning {
  listdir_clone : option (list string);
  listdir_build : option (list string);
  listdir_instantiate : option (list string);
  build_succeeds : string → string → bool;
  LANGUAGE_NAME_TO_PATH : list (string * string)
}.

(** The loop of [clone_languages] over the names: a name that is not in
    [LANGUAGE_NAME_TO_REPO] is logged and skipped; for a name that is,
    [org_and_repo] is a dictionary and [org_and_repo.split("/")] raises
    [AttributeError], before anything is cloned.  [None] is the
    exception. *)
Fixpoint clone_loop (names : list string) : option unit :=
  match names with
  | [] => Some tt
  | name :: rest =>
      match assoc name LANGUAGE_NAME_TO_REPO with
      | None => clone_loop rest
      | Some org_and_repo => None
      end
  end.

(** [clone_languages()]: the listing, then the loop over
    [set(language_names)]. *)
Definition clone_languages (language_names : list string)
    (listing : option (list string)) : option unit :=
  match listing with
  | None => None
  | Some files => clone_loop (remove_dups language_names)
  end.

(** The loop of [build_languages]: the two [continue] guards, then the
    build subprocess, whose failure raises. *)
Fixpoint build_loop (paths : list (string * string))
    (succeeds : string → string → bool) (files names : list string)
    : option unit :=
  match names with
  | [] => Some tt
  | name :: rest =>
      let so_file := get_so_file name in
      if decide (so_file ∈ files) then build_loop paths succeeds files rest
      else match assoc name paths with
           | None => build_loop paths succeeds files rest
           | Some path =>
               if succeeds so_file path
               then build_loop paths succeeds files rest
               else None
           end
  end.

(** [build_languages()]. *)
Definition build_languages (language_names : list string)
    (env : Provisioning) : option unit :=
  match listdir_build env with
  | None => None
  | Some files =>
      build_loop (LANGUAGE_NAME_TO_PATH env) (build_succeeds env) files
        (remove_dups language_names)
  end.

(** What [load_languages] goes through before it assigns anything: the
    cloning, the building and the listing of [instantiate_languages].
    [Some files] when none of them raises, [files] being that last
    listing. *)
Definition provision (language_names : list string) (env : Provisioning)
    : option (list string) :=
  match clone_languages language_names (listdir_clone env) with
  | None => None
  | Some _ =>
      match build_languages language_names env with
      | None => None
      | Some _ => listdir_instantiate env
      end
  end.

(** ** Scopes, parsing and editing *)

(** [check_scope(scope)]: [None] when the scope is [None], empty, or not a key
    of [SCOPE_TO_LANGUAGE]. *)
Definition check_scope (w : World) (scope : option ScopeType)
    : option ScopeType :=
  match scope with
  | None => None
  | Some s =>
      if decide (s = "") then None
      else match SCOPE_TO_LANGUAGE w !! s with
           | None => None
           | Some _ => Some s
           end
  end.

(** [parse(parser, scope, s)].  [parser.set_language] rebinds the parser
    just before it is used, so the tree is the one of
    [SCOPE_TO_LANGUAGE[scope]]; the subscript raises [KeyError] on an
    unregistered scope, which is the [None] here. *)
Definition parse (w : World) (scope : ScopeType) (s : string) : option Tree :=
  match SCOPE_TO_LANGUAGE w !! scope with
  | None => None
  | Some language => Some (mkTree language s)
  end.

(** [edit(parser, scope, change, tree)]: rebinds the parser and returns
    [tree]; [change] is not used. *)
Definition edit (w : World) (scope : ScopeType) (change : TextChange)
    (t : Tree) : option Tree :=
  match SCOPE_TO_LANGUAGE w !! scope with
  | None => None
  | Some _ => Some t
  end.

(** [get_scope(view)]. *)
Definition get_scope (view : View) : option ScopeType := view_syntax view.

(** ** The eviction order

    [min((d["updated_s"], buffer_id) for buffer_id, d in ...items())]
    compares Python tuples: by timestamp, then by buffer id. *)

Definition key_ltb (p q : Z * Z) : bool :=
  (p.1 <? q.1) || ((p.1 =? q.1) && (p.2 <? q.2)).

Definition key_lt (p q : Z * Z) : Prop :=
  p.1 < q.1 ∨ (p.1 = q.1 ∧ p.2 < q.2).

(** The tuple the generator yields for one item of the dictionary. *)
Definition entry_key (item : Z * TreeDict) : Z * Z :=
  (updated_s item.2, item.1).

(** Python's [min] over a non-empty iterable: the first of the smallest
    elements, found by one pass that keeps the best so far. *)
Definition min_from (best : Z * Z) (l : list (Z * Z)) : Z * Z :=
  foldl (fun m p => if key_ltb p m then p else m) best l.

(** One iteration of the loop of [trim_cached_trees]: take the minimum and
    [pop] its buffer id.  [min] of an empty sequence raises, but the loop
    only runs the body when the dictionary has more than
    [MAX_CACHED_TREES] items. *)
Definition evict_oldest (c : gmap Z TreeDict) : gmap Z TreeDict :=
  match entry_key <$> map_to_list c with
  | [] => c
  | k :: ks => delete (min_from k ks).2 c
  end.

(** The [while] loop, with the number of iterations it may still run. *)
Fixpoint trim_loop (fuel : nat) (c : gmap Z TreeDict) : gmap Z TreeDict :=
  match fuel with
  | O => c
  | S fuel' =>
      if decide (MAX_CACHED_TREES < size c)%nat
      then trim_loop fuel' (evict_oldest c)
      else c
  end.

(** [trim_cached_trees(size)].  The parameter [size] is not used by the
    body, which compares with [MAX_CACHED_TREES].  Each iteration removes an
    item, so as many iterations as there are items is enough. *)
Definition trim_cached_trees (size_arg : nat) (w : World) : World :=
  mkWorld (SCOPE_TO_LANGUAGE w)
    (trim_loop (size (BUFFER_ID_TO_TREE w)) (BUFFER_ID_TO_TREE w))
    (clock w) (trace w).

(** ** Writing and publishing *)

(** How a callback ends: it returns, or an exception leaves it with the
    state reached so far. *)
Inductive outcome :=
  | Returned (w : World)
  | Raised (w : World).

Definition world_of (o : outcome) : World :=
  match o with Returned w | Raised w => w end.

(** [publish_tree_update(window, buffer_id, scope)].  [scope or ""] is
    [scope] itself for a string. *)
Definition publish_tree_update (window : option Window) (buffer_id : Z)
    (scope : string) (w : World) : World :=
  match window with
  | Some win =>
      if window_truthy window
      then mkWorld (SCOPE_TO_LANGUAGE w) (BUFFER_ID_TO_TREE w) (clock w)
             (trace w ++ [RanCommand win (mkUpdateTreeArgs buffer_id scope)])
      else w
  | None => w
  end.

Section Clock.

(** [monotonic k] is what the [k]-th call of [time.monotonic()] returns. *)
Variable monotonic : nat → Z.

(** [make_tree_dict(tree)]: reads the clock once. *)
Definition make_tree_dict (t : Tree) (w : World) : TreeDict * World :=
  (mkTreeDict t (monotonic (clock w)),
   mkWorld (SCOPE_TO_LANGUAGE w) (BUFFER_ID_TO_TREE w) (S (clock w))
     (trace w)).

(** [BUFFER_ID_TO_TREE[buffer_id] = make_tree_dict(tree)]. *)
Definition cache_write (buffer_id : Z) (t : Tree) (w : World) : World :=
  let '(d, w1) := make_tree_dict t w in
  mkWorld (SCOPE_TO_LANGUAGE w1) (<[buffer_id := d]> (BUFFER_ID_TO_TREE w1))
    (clock w1) (trace w1 ++ [Wrote buffer_id d]).

(** [parse_view(parser, view, publish_update)]. *)
Definition parse_view (view : View) (publish_update : bool) (w : World)
    : outcome :=
  match check_scope w (view_syntax view) with
  | None => Returned w
  | Some scope =>
      let buffer_id := view_buffer_id view in
      match parse w scope (view_text view) with
      | None => Raised w
      | Some t =>
          let w1 := cache_write buffer_id t w in
          let w2 := if publish_update
                    then publish_tree_update (view_window view) buffer_id
                           scope w1
                    else w1 in
          Returned (trim_cached_trees MAX_CACHED_TREES w2)
      end
  end.

(** [load_languages()]: [clone_languages()], [build_languages()] and
    [instantiate_languages()] in turn, an exception in any of them ending
    the function with the state as it is; then the parse of the active
    view.  [active_view] is [sublime.active_window().active_view()], [None]
    when it is false. *)
Definition load_languages (language_names : list string)
    (env : Provisioning) (active_view : option View) (w : World) : outcome :=
  match clone_languages language_names (listdir_clone env) with
  | None => Raised w
  | Some _ =>
      match build_languages language_names env with
      | None => Raised w
      | Some _ =>
          match listdir_instantiate env with
          | None => Raised w
          | Some files =>
              let w1 := instantiate_languages language_names files w in
              match active_view with
              | None => Returned w1
              | Some view =>
                  match BUFFER_ID_TO_TREE w1 !! view_buffer_id view with
                  | None => parse_view view false w1
                  | Some _ => Returned w1
                  end
              end
          end
      end
  end.

(** *** [TreeSitterEventListener] *)

Definition handle_load (view : View) (w : World) : outcome :=
  parse_view view true w.

Definition on_activated_async (view : View) (w : World) : outcome :=
  match BUFFER_ID_TO_TREE w !! view_buffer_id view with
  | None => handle_load view w
  | Some _ => Returned w
  end.

Definition on_load_async (view : View) (w : World) : outcome :=
  match BUFFER_ID_TO_TREE w !! view_buffer_id view with
  | None => handle_load view w
  | Some _ => Returned w
  end.

Definition on_reload_async (view : View) (w : World) : outcome :=
  handle_load view w.

Definition on_revert_async (view : View) (w : World) : outcome :=
  handle_load view w.

(** *** [TreeSitterTextChangeListener] *)

(** The [for change in changes] loop of [on_text_changed_async]; [view] is
    the primary view of the listener's buffer. *)
Fixpoint apply_changes (view : View) (scope : ScopeType)
    (changes : list TextChange) (w : World) : outcome :=
  match changes with
  | [] => Returned w
  | change :: rest =>
      let buffer_id := view_buffer_id view in
      let r := match BUFFER_ID_TO_TREE w !! buffer_id with
               | None => parse w scope (view_text view)
               | Some d => edit w scope change (tree d)
               end in
      match r with
      | None => Raised w
      | Some t => apply_changes view scope rest (cache_write buffer_id t w)
      end
  end.

Definition on_text_changed_async (view : View) (changes : list TextChange)
    (w : World) : outcome :=
  match check_scope w (view_syntax view) with
  | None => Returned w
  | Some scope =>
      let buffer_id := view_buffer_id view in
      match apply_changes view scope changes w with
      | Raised w1 => Raised w1
      | Returned w1 =>
          Returned
            (trim_cached_trees MAX_CACHED_TREES
               (publish_tree_update (view_window view) buffer_id scope w1))
      end
  end.

(** *** The callbacks as events *)

Inductive event :=
  | Activated (view : View)
  | Loaded (view : View)
  | Reloaded (view : View)
  | Reverted (view : View)
  | TextChanged (view : View) (changes : list TextChange)
  | LanguagesLoaded (language_names : list string) (env : Provisioning)
      (active_view : option View).

Definition handle (e : event) (w : World) : outcome :=
  match e with
  | Activated v => on_activated_async v w
  | Loaded v => on_load_async v w
  | Reloaded v => on_reload_async v w
  | Reverted v => on_revert_async v w
  | TextChanged v changes => on_text_changed_async v changes w
  | LanguagesLoaded names env v => load_languages names env v w
  end.

(** The host runs the asynchronous callbacks one after the other on one
    thread; an exception in a callback is reported and the next callback
    runs.  [load_languages] runs on a thread of its own; here it is one
    step, taken between two callbacks. *)
Definition run (events : list event) (w : World) : World :=
  foldl (fun w e => world_of (handle e w)) w events.

End Clock.

(** ** Notions the properties are stated with *)

(** The text of a buffer after the host replaced the region of [change]. *)
Definition apply_text_change (change : TextChange) (text : string) : string :=
  (String.substring 0 (change_a change) text ++ change_str change ++
   String.substring (change_b change)
     (String.length text - change_b change)%nat
     text)%string.

(** The last entry written for each buffer in a history. *)
Definition written (t : list effect) : gmap Z TreeDict :=
  foldl (fun m e => match e with Wrote b d => <[b := d]> m | _ => m end) ∅ t.

(** The cache writes of a history, and the commands it ran. *)
Definition writes (t : list effect) : list (Z * TreeDict) :=
  omap (fun e => match e with Wrote b d => Some (b, d) | _ => None end) t.

Definition notifications (t : list effect) : list UpdateTreeArgs :=
  omap (fun e => match e with RanCommand _ a => Some a | _ => None end) t.

(** A history in which every write is directly followed by a notification
    for the buffer written, and nothing else happens. *)
Fixpoint every_write_notified (t : list effect) : bool :=
  match t with
  | [] => true
  | Wrote b _ :: t1 =>
      match t1 with
      | RanCommand _ a :: t2 =>
          (arg_buffer_id a =? b) && every_write_notified t2
      | _ => false
      end
  | RanCommand _ _ :: _ => false
  end.

(** An entry stays in a cache that gets one item too many when it is not
    the item the eviction picks: there is room left, or something older. *)
Definition outlives (c : gmap Z TreeDict) (b : Z) (d : TreeDict) : Prop :=
  (size c < MAX_CACHED_TREES)%nat ∨ is_Some (c !! b) ∨
  ∃ b' d', b' ≠ b ∧ c !! b' = Some d' ∧
           key_lt (updated_s d', b') (updated_s d, b).

(** Every item of [c] that is not in [c'] is older than every item of
    [c']. *)
Definition evicted_older (c c' : gmap Z TreeDict) : Prop :=
  ∀ b d b' d', c !! b = Some d → c' !! b = None → c' !! b' = Some d' →
               key_lt (updated_s d, b) (updated_s d', b').

(** The entries that [n] consecutive writes of the tree [t] store, the first
    of them stamped with the [k]-th reading of the clock. *)
Definition stamps (monotonic : nat → Z) (t : Tree) (k n : nat)
    : list TreeDict :=
  (fun i => mkTreeDict t (monotonic i)) <$> seq k n.

(** The tree a text change stores for the buffer of [view]: the cached one
    when there is one, the parse of the whole text otherwise. *)
Definition tree_to_store (w : World) (view : View) (language : Language)
    : Tree :=
  match BUFFER_ID_TO_TREE w !! view_buffer_id view with
  | Some d => tree d
  | None => mkTree language (view_text view)
  end.

(** The buffer an event is about and the syntax of its view, if any. *)
Definition event_view (e : event) : option View :=
  match e with
  | Activated v | Loaded v | Reloaded v | Reverted v | TextChanged v _ =>
      Some v
  | LanguagesLoaded _ _ v => v
  end.

(** The items of a dictionary stored under the key [b]. *)
Definition entries_for (b : Z) (c : gmap Z TreeDict) : list (Z * TreeDict) :=
  filter (fun item => item.1 = b) (map_to_list c).

(** The registry against which a callback checks the scope of its view:
    [load_languages] instantiates the languages first, when the cloning and
    the building have not raised. *)
Definition registry_seen (e : event) (w : World) : World :=
  match e with
  | LanguagesLoaded names env _ =>
      match provision names env with
      | Some files => instantiate_languages names files w
      | None => w
      end
  | _ => w
  end.

(** Along a run, every callback for buffer [b] finds the scope of its view
    absent: [None], empty, or not registered at that moment. *)
Fixpoint unresolved_throughout (monotonic : nat → Z) (b : Z)
    (events : list event) (w : World) : Prop :=
  match events with
  | [] => True
  | e :: rest =>
      (∀ v, event_view e = Some v → view_buffer_id v = b →
            check_scope (registry_seen e w) (view_syntax v) = None) ∧
      unresolved_throughout monotonic b rest (world_of (handle monotonic e w))
  end.

(** The events that write when the scope is supported: a lifecycle event
    (for a load or an activation, of a buffer not cached yet) and a text
    change with at least one change. *)
Definition writing_event (e : event) : Prop :=
  match e with
  | Activated _ | Loaded _ | Reloaded _ | Reverted _ => True
  | TextChanged _ changes => changes ≠ []
  | LanguagesLoaded _ _ _ => False
  end.

(** The buffer ids of the views of a list of events. *)
Definition event_buffers (events : list event) : list Z :=
  omap (fun e => view_buffer_id <$> event_view e) events.

(** A writing event whose view has a scope registered in [w]. *)
Definition supported_writer (w : World) (e : event) : Prop :=
  writing_event e ∧
  ∃ v, event_view e = Some v ∧ is_Some (check_scope w (view_syntax v)).

(** The cache [c] holds the newest of the entries [all] written so far: it
    is part of them, it has as many items as the capacity allows, and what
    it lacks is older than what it has. *)
Definition keeps_newest (all c : gmap Z TreeDict) : Prop :=
  c ⊆ all ∧
  size c = (size all `min` MAX_CACHED_TREES)%nat ∧
  evicted_older all c.

(** *** Concrete states used in the examples *)

Definition empty_world : World := mkWorld ∅ ∅ 0 [].

(** The state once the python grammar has been built and instantiated. *)
Definition python_world : World :=
  instantiate_languages ["python"] ["language-python.so"] empty_world.

Definition python_language : Language := mkLanguage "python".

Definition python_view (b : Z) (text : string) (window : option Window)
    : View :=
  mkView b (Some "source.python") text window.

(** A build directory that holds the python grammar and can be listed, with
    no table of parser paths: nothing is built. *)
Definition python_disk : Provisioning :=
  mkProvisioning (Some ["language-python.so"]) (Some ["language-python.so"])
    (Some ["language-python.so"]) (fun _ _ => true) [].

(** A cache holding one entry per pair (buffer id, timestamp). *)
Definition cache_of (l : list (Z * Z)) : gmap Z TreeDict :=
  list_to_map
    ((fun p => (p.1, mkTreeDict (mkTree python_language "") p.2)) <$> l).

(** Buffers [0 .. n-1], all stamped [ts]. *)
Definition same_age (n : nat) (ts : Z) : list (Z * Z) :=
  (fun i => (Z.of_nat i, ts)) <$> seq 0 n.

(** ** More of the code: [utils.add_path] and notions for its properties *)

(** [add_path(path)] of [src/utils.py], on the list [sys.path]:
    [sys.path.insert(0, path)] unless the path is in it. *)
Definition add_path (path : string) (sys_path : list string) : list string :=
  if decide (path ∈ sys_path) then sys_path else path :: sys_path.

(** The language [name] is in [LANGUAGE_NAME_TO_SCOPES] with [scope] among
    its scopes, and its [.so] file is among [files]: the loop of
    [instantiate_languages] assigns [scope] when it reaches [name]. *)
Definition assigns (files : list string) (name : string) (scope : ScopeType)
    : Prop :=
  ∃ scopes, assoc name LANGUAGE_NAME_TO_SCOPES = Some scopes ∧
            get_so_file name ∈ files ∧ scope ∈ scopes.

(** The callbacks of the two listeners, as opposed to [load_languages]. *)
Definition listener_event (e : event) : Prop :=
  match e with
  | LanguagesLoaded _ _ _ => False
  | _ => True
  end.

(** Every cached entry carries a reading of the clock taken earlier. *)
Definition stamped_before (monotonic : nat → Z) (w : World) : Prop :=
  ∀ b d, BUFFER_ID_TO_TREE w !! b = Some d →
         ∃ k, (k < clock w)%nat ∧ updated_s d = monotonic k.

(** What a callback whose view is [ov] can do to the cache, the clock and
    the writes of the history: nothing; a trim and no write; or [k] writes,
    [k] at least 1, for the buffer of its view, of which the last one
    counts, followed by a trim. *)
Definition callback_effect (monotonic : nat → Z) (ov : option View)
    (w w' : World) : Prop :=
  (BUFFER_ID_TO_TREE w' = BUFFER_ID_TO_TREE w ∧ clock w' = clock w ∧
   writes (trace w') = writes (trace w)) ∨
  (BUFFER_ID_TO_TREE w' =
     trim_loop (size (BUFFER_ID_TO_TREE w)) (BUFFER_ID_TO_TREE w) ∧
   clock w' = clock w ∧ writes (trace w') = writes (trace w)) ∨
  (∃ v t k,
     ov = Some v ∧ (1 ≤ k)%nat ∧
     let b := view_buffer_id v in
     let d := mkTreeDict t (monotonic (clock w + k - 1)%nat) in
     BUFFER_ID_TO_TREE w' =
       trim_loop (size (<[b := d]> (BUFFER_ID_TO_TREE w)))
         (<[b := d]> (BUFFER_ID_TO_TREE w)) ∧
     clock w' = (clock w + k)%nat ∧
     writes (trace w') =
       writes (trace w) ++ ((fun d => (b, d)) <$> stamps monotonic t (clock w) k)).

(** ** More of the code: the scope tables of [src/utils.py] *)

(** [d[k] = v] on a dictionary kept as its items in insertion order: the
    value of a key that is there is replaced in place, a new key goes to
    the end. *)
Fixpoint dict_set {V : Type} (k : string) (v : V) (d : list (string * V))
    : list (string * V) :=
  match d with
  | [] => [(k, v)]
  | (k', v') :: d' =>
      if decide (k = k') then (k, v) :: d' else (k', v') :: dict_set k v d'
  end.

(** [{**a, **b}]: the items of [a], then the items of [b] assigned one by
    one. *)
Definition dict_merge {V : Type} (a b : list (string * V))
    : list (string * V) :=
  foldl (fun d kv => dict_set kv.1 kv.2 d) a b.

(** [get_language_name_to_scopes()].  [settings] is the value of the
    [language_name_to_scopes] setting, [None] when it is missing or null;
    [... or {}] turns [None] (and the empty dictionary) into the empty
    dictionary. *)
Definition get_language_name_to_scopes
    (settings : option (list (string * list ScopeType)))
    : list (string * list ScopeType) :=
  dict_merge LANGUAGE_NAME_TO_SCOPES (default [] settings).

(** [get_scope_to_language_name()]: the two nested loops, each assignment
    overwriting what an earlier one stored for the scope. *)
Definition get_scope_to_language_name
    (settings : option (list (string * list ScopeType)))
    : gmap ScopeType string :=
  foldl
    (fun m item => foldl (fun m scope => <[scope := item.1]> m) m item.2)
    ∅ (get_language_name_to_scopes settings).

(** ** The eviction order is a strict total order *)

Lemma key_ltb_lt p q : key_ltb p q = true ↔ key_lt p q.
Proof.
  unfold key_ltb, key_lt.
  rewrite orb_true_iff, andb_true_iff, !Z.ltb_lt, Z.eqb_eq. tauto.
Qed.

Lemma key_ltb_nlt p q : key_ltb p q = false ↔ ¬ key_lt p q.
Proof.
  rewrite <- key_ltb_lt. destruct (key_ltb p q); split; congruence.
Qed.

Lemma key_lt_irrefl p : ¬ key_lt p p.
Proof. unfold key_lt. lia. Qed.

Lemma key_lt_trans p q r : key_lt p q → key_lt q r → key_lt p r.
Proof. unfold key_lt. lia. Qed.

Lemma key_lt_total p q : key_lt p q ∨ p = q ∨ key_lt q p.
Proof.
  destruct p as [a b], q as [a' b']. unfold key_lt. simpl.
  destruct (Z.lt_trichotomy a a') as [?|[->|?]]; [tauto| |tauto].
  destruct (Z.lt_trichotomy b b') as [?|[->|?]]; tauto.
Qed.

Lemma key_lt_ts p q : key_lt p q → p.1 ≤ q.1.
Proof. unfold key_lt. lia. Qed.

(** ** [min] returns a smallest element of what it is given *)

Lemma min_from_elem best l : min_from best l ∈ best :: l.
Proof.
  revert best. induction l as [|p l IH]; intros best; simpl.
  - apply list_elem_of_here.
  - specialize (IH (if key_ltb p best then p else best)).
    apply elem_of_cons in IH as [->|IH].
    + destruct (key_ltb p best); [right; left | left].
    + right; right; exact IH.
Qed.

Lemma min_from_le_best best l : ¬ key_lt best (min_from best l).
Proof.
  revert best. induction l as [|p l IH]; intros best; simpl.
  - apply key_lt_irrefl.
  - destruct (key_ltb p best) eqn:E.
    + apply key_ltb_lt in E. intros H. apply (IH p).
      eapply key_lt_trans; eassumption.
    + apply IH.
Qed.

Lemma min_from_lower best l x : x ∈ best :: l → ¬ key_lt x (min_from best l).
Proof.
  revert best. induction l as [|p l IH]; intros best Hx; simpl.
  - apply list_elem_of_singleton in Hx as ->. apply key_lt_irrefl.
  - apply elem_of_cons in Hx as [->|Hx].
    + destruct (key_ltb p best) eqn:E.
      * apply key_ltb_lt in E. intros H.
        apply (min_from_le_best p l).
        eapply key_lt_trans; eassumption.
      * apply min_from_le_best.
    + apply elem_of_cons in Hx as [->|Hx].
      * destruct (key_ltb p best) eqn:E.
        -- apply min_from_le_best.
        -- apply key_ltb_nlt in E. intros H.
           destruct (key_lt_total p best) as [?|[->|Hlt]]; [tauto| |].
           ++ revert H. apply min_from_le_best.
           ++ apply (min_from_le_best best l).
              eapply key_lt_trans; eassumption.
      * apply IH. right. exact Hx.
Qed.

(** ** One eviction *)

Lemma evict_oldest_spec (c : gmap Z TreeDict) :
  c ≠ ∅ →
  ∃ b d, c !! b = Some d ∧ evict_oldest c = delete b c ∧
         ∀ b' d', c !! b' = Some d' → b' ≠ b →
                  key_lt (updated_s d, b) (updated_s d', b').
Proof.
  intros Hne. unfold evict_oldest.
  destruct (entry_key <$> map_to_list c) as [|k ks] eqn:El.
  - apply fmap_nil_inv in El. apply map_to_list_empty_iff in El. done.
  - pose proof (min_from_elem k ks) as Hin. rewrite <- El in Hin.
    apply list_elem_of_fmap in Hin as [[b d] [Hm Hbd]].
    apply elem_of_map_to_list in Hbd.
    exists b, d. rewrite Hm. split; [done|]. split; [done|].
    intros b' d' Hb' Hneq.
    assert (entry_key (b', d') ∈ k :: ks) as Hin'.
    { rewrite <- El. apply list_elem_of_fmap_2.
      by apply elem_of_map_to_list. }
    apply min_from_lower in Hin'. rewrite Hm in Hin'.
    unfold entry_key in Hin'. simpl in Hin'.
    destruct (key_lt_total (updated_s d, b) (updated_s d', b'))
      as [?|[Heq|?]]; [done| |done].
    inversion Heq. congruence.
Qed.

Lemma evict_oldest_size (c : gmap Z TreeDict) :
  c ≠ ∅ → size (evict_oldest c) = pred (size c).
Proof.
  intros Hne. destruct (evict_oldest_spec c Hne) as (b & d & Hb & -> & _).
  apply map_size_delete_Some. eauto.
Qed.

Lemma evict_oldest_subseteq (c : gmap Z TreeDict) : evict_oldest c ⊆ c.
Proof.
  unfold evict_oldest. destruct (entry_key <$> map_to_list c); [done|].
  apply delete_subseteq.
Qed.

Lemma over_capacity_nonempty (c : gmap Z TreeDict) :
  (MAX_CACHED_TREES < size c)%nat → c ≠ ∅.
Proof. intros H ->. rewrite map_size_empty in H. lia. Qed.

(** ** The eviction loop *)

Lemma trim_loop_id fuel (c : gmap Z TreeDict) :
  (size c ≤ MAX_CACHED_TREES)%nat → trim_loop fuel c = c.
Proof.
  intros H. destruct fuel; simpl; [done|]. case_decide; [lia|done].
Qed.

Lemma trim_loop_subseteq fuel (c : gmap Z TreeDict) : trim_loop fuel c ⊆ c.
Proof.
  revert c. induction fuel as [|fuel IH]; intros c; simpl; [done|].
  case_decide; [|done].
  etrans; [apply IH | apply evict_oldest_subseteq].
Qed.

Lemma trim_loop_size fuel (c : gmap Z TreeDict) :
  (size c ≤ fuel + MAX_CACHED_TREES)%nat →
  size (trim_loop fuel c) = (size c `min` MAX_CACHED_TREES)%nat.
Proof.
  revert c. induction fuel as [|fuel IH]; intros c Hf; simpl.
  - lia.
  - case_decide as Hc; [|lia].
    pose proof (evict_oldest_size c (over_capacity_nonempty c Hc)) as Hs.
    rewrite IH by lia. lia.
Qed.

Lemma trim_loop_evicted_older fuel (c : gmap Z TreeDict) :
  evicted_older c (trim_loop fuel c).
Proof.
  revert c. induction fuel as [|fuel IH]; intros c b d b' d' Hb Hgone Hb';
    simpl in *; [congruence|].
  case_decide as Hc; [|congruence].
  destruct (evict_oldest_spec c (over_capacity_nonempty c Hc))
    as (b0 & d0 & Hb0 & He & Hmin).
  rewrite He in *.
  pose proof (lookup_weaken _ _ _ _ Hb' (trim_loop_subseteq fuel _)) as Hb1.
  apply lookup_delete_Some in Hb1 as [Hne Hb1].
  destruct (decide (b = b0)) as [->|Hbb].
  - assert (d = d0) as -> by congruence. by apply Hmin.
  - eapply (IH (delete b0 c)); [|done..]. by rewrite lookup_delete_ne.
Qed.

(** ** [trim_cached_trees] on the state *)

Lemma trim_cached_trees_frame n w :
  SCOPE_TO_LANGUAGE (trim_cached_trees n w) = SCOPE_TO_LANGUAGE w ∧
  clock (trim_cached_trees n w) = clock w ∧
  trace (trim_cached_trees n w) = trace w.
Proof. done. Qed.

Lemma trim_cached_trees_size n w :
  size (BUFFER_ID_TO_TREE (trim_cached_trees n w)) =
  (size (BUFFER_ID_TO_TREE w) `min` MAX_CACHED_TREES)%nat.
Proof. simpl. apply trim_loop_size. lia. Qed.

Lemma trim_cached_trees_subseteq n w :
  BUFFER_ID_TO_TREE (trim_cached_trees n w) ⊆ BUFFER_ID_TO_TREE w.
Proof. apply trim_loop_subseteq. Qed.

Lemma trim_cached_trees_id n w :
  (size (BUFFER_ID_TO_TREE w) ≤ MAX_CACHED_TREES)%nat →
  trim_cached_trees n w = w.
Proof.
  intros H. unfold trim_cached_trees. rewrite trim_loop_id by done.
  by destruct w.
Qed.

(** An entry that is not the oldest of at most [MAX_CACHED_TREES + 1] items
    is still there after the trim. *)
Lemma trim_loop_keeps fuel (c : gmap Z TreeDict) b d :
  (size c ≤ S MAX_CACHED_TREES)%nat → c !! b = Some d →
  (size c ≤ MAX_CACHED_TREES)%nat ∨
    (∃ b' d', b' ≠ b ∧ c !! b' = Some d' ∧
              key_lt (updated_s d', b') (updated_s d, b)) →
  trim_loop fuel c !! b = Some d.
Proof.
  intros Hs Hb Hroom. destruct fuel; simpl; [done|].
  case_decide as Hc; [|done].
  destruct Hroom as [?|(b' & d' & Hne & Hb' & Hlt)]; [lia|].
  pose proof (over_capacity_nonempty c Hc) as Hnonempty.
  destruct (evict_oldest_spec c Hnonempty) as (b0 & d0 & Hb0 & He & Hmin).
  pose proof (evict_oldest_size c Hnonempty) as Hsz.
  rewrite trim_loop_id by lia. rewrite He.
  rewrite lookup_delete_ne; [done|]. intros ->.
  assert (d0 = d) as -> by congruence.
  apply (key_lt_irrefl (updated_s d', b')).
  eapply key_lt_trans; [exact Hlt|]. by apply Hmin.
Qed.

(** ** Scopes *)

Lemma check_scope_Some w sc s :
  check_scope w sc = Some s ↔
  sc = Some s ∧ s ≠ "" ∧ is_Some (SCOPE_TO_LANGUAGE w !! s).
Proof.
  unfold check_scope. destruct sc as [s'|].
  - case_decide as He.
    + split; [done|]. intros ([= ->] & ? & _). done.
    + destruct (SCOPE_TO_LANGUAGE w !! s') as [l|] eqn:El.
      * split.
        -- intros [= ->]. rewrite El. eauto.
        -- by intros ([= ->] & _ & _).
      * split; [done|]. intros ([= ->] & _ & [? Hl]). congruence.
  - split; [done|]. by intros (? & _).
Qed.

Lemma check_scope_registered w sc s :
  check_scope w sc = Some s → ∃ language, SCOPE_TO_LANGUAGE w !! s = Some language.
Proof. intros H. apply check_scope_Some in H as (_ & _ & [l Hl]). eauto. Qed.

Lemma parse_registered w s language text :
  SCOPE_TO_LANGUAGE w !! s = Some language →
  parse w s text = Some (mkTree language text).
Proof. intros H. unfold parse. by rewrite H. Qed.

Lemma edit_registered w s language change t :
  SCOPE_TO_LANGUAGE w !! s = Some language → edit w s change t = Some t.
Proof. intros H. unfold edit. by rewrite H. Qed.

Lemma stamps_cons monotonic t k n :
  stamps monotonic t k (S n) =
  mkTreeDict t (monotonic k) :: stamps monotonic t (S k) n.
Proof. done. Qed.

Lemma stamps_length monotonic t k n : length (stamps monotonic t k n) = n.
Proof. unfold stamps. by rewrite length_fmap, length_seq. Qed.

Section Callbacks.

Variable monotonic : nat → Z.

Lemma cache_write_eq b t w :
  cache_write monotonic b t w =
  mkWorld (SCOPE_TO_LANGUAGE w)
    (<[b := mkTreeDict t (monotonic (clock w))]> (BUFFER_ID_TO_TREE w))
    (S (clock w))
    (trace w ++ [Wrote b (mkTreeDict t (monotonic (clock w)))]).
Proof. done. Qed.

(** *** [parse_view] *)

Lemma parse_view_unsupported view p w :
  check_scope w (view_syntax view) = None →
  parse_view monotonic view p w = Returned w.
Proof. intros H. unfold parse_view. by rewrite H. Qed.

Lemma parse_view_supported view p w scope language :
  check_scope w (view_syntax view) = Some scope →
  SCOPE_TO_LANGUAGE w !! scope = Some language →
  parse_view monotonic view p w =
  Returned
    (trim_cached_trees MAX_CACHED_TREES
       ((if p then publish_tree_update (view_window view)
                     (view_buffer_id view) scope
         else id)
          (cache_write monotonic (view_buffer_id view)
             (mkTree language (view_text view)) w))).
Proof.
  intros Hs Hl. unfold parse_view. rewrite Hs.
  rewrite (parse_registered _ _ _ _ Hl). by destruct p.
Qed.

Lemma publish_tree_update_frame window b scope w :
  SCOPE_TO_LANGUAGE (publish_tree_update window b scope w)
    = SCOPE_TO_LANGUAGE w ∧
  BUFFER_ID_TO_TREE (publish_tree_update window b scope w)
    = BUFFER_ID_TO_TREE w ∧
  clock (publish_tree_update window b scope w) = clock w.
Proof.
  unfold publish_tree_update. destruct window; [|done].
  by destruct (window_truthy _).
Qed.

Lemma publish_tree_update_truthy win b scope w :
  window_truthy (Some win) = true →
  trace (publish_tree_update (Some win) b scope w) =
  trace w ++ [RanCommand win (mkUpdateTreeArgs b scope)].
Proof. intros H. unfold publish_tree_update. by rewrite H. Qed.

Lemma publish_tree_update_falsy window b scope w :
  window_truthy window = false →
  publish_tree_update window b scope w = w.
Proof.
  intros H. unfold publish_tree_update. destruct window; [|done].
  by rewrite H.
Qed.

(** *** The loop over the changes *)

Lemma apply_changes_cached view scope language changes :
  ∀ w d,
    SCOPE_TO_LANGUAGE w !! scope = Some language →
    BUFFER_ID_TO_TREE w !! view_buffer_id view = Some d →
    changes ≠ [] →
    apply_changes monotonic view scope changes w =
    Returned
      (mkWorld (SCOPE_TO_LANGUAGE w)
         (<[view_buffer_id view :=
              mkTreeDict (tree d)
                (monotonic (clock w + length changes - 1)%nat)]>
            (BUFFER_ID_TO_TREE w))
         (clock w + length changes)%nat
         (trace w ++
            (Wrote (view_buffer_id view) <$>
               stamps monotonic (tree d) (clock w) (length changes)))).
Proof.
  induction changes as [|change rest IH]; intros w d Hl Hb Hne; [done|].
  simpl apply_changes. rewrite Hb, (edit_registered _ _ _ _ _ Hl).
  destruct rest as [|change' rest'].
  - simpl. rewrite cache_write_eq. do 2 f_equal.
    + do 3 f_equal. lia.
    + lia.
  - rewrite (IH _ (mkTreeDict (tree d) (monotonic (clock w))));
      [|done|by rewrite cache_write_eq; simpl; rewrite lookup_insert_eq
       |done].
    rewrite cache_write_eq. simpl tree. simpl SCOPE_TO_LANGUAGE.
    simpl BUFFER_ID_TO_TREE. simpl clock. simpl trace.
    rewrite insert_insert_eq. do 2 f_equal.
    + do 3 f_equal. simpl length. lia.
    + simpl length. lia.
    + rewrite <- app_assoc. f_equal.
Qed.

Lemma apply_changes_supported view scope language changes w :
  SCOPE_TO_LANGUAGE w !! scope = Some language →
  changes ≠ [] →
  apply_changes monotonic view scope changes w =
  Returned
    (mkWorld (SCOPE_TO_LANGUAGE w)
       (<[view_buffer_id view :=
            mkTreeDict (tree_to_store w view language)
              (monotonic (clock w + length changes - 1)%nat)]>
          (BUFFER_ID_TO_TREE w))
       (clock w + length changes)%nat
       (trace w ++
          (Wrote (view_buffer_id view) <$>
             stamps monotonic (tree_to_store w view language) (clock w)
               (length changes)))).
Proof.
  intros Hl Hne. unfold tree_to_store.
  destruct (BUFFER_ID_TO_TREE w !! view_buffer_id view) as [d|] eqn:Hb.
  - by apply (apply_changes_cached view scope language).
  - destruct changes as [|change rest]; [done|].
    simpl apply_changes. rewrite Hb, (parse_registered _ _ _ _ Hl).
    destruct rest as [|change' rest'].
    + simpl. rewrite cache_write_eq. do 2 f_equal.
      * do 3 f_equal. lia.
      * lia.
    + rewrite (apply_changes_cached view scope language _ _
                 (mkTreeDict (mkTree language (view_text view))
                    (monotonic (clock w))));
        [|done|by rewrite cache_write_eq; simpl; rewrite lookup_insert_eq
         |done].
      rewrite cache_write_eq. simpl tree. simpl SCOPE_TO_LANGUAGE.
      simpl BUFFER_ID_TO_TREE. simpl clock. simpl trace.
      rewrite insert_insert_eq. do 2 f_equal.
      * do 3 f_equal. simpl length. lia.
      * simpl length. lia.
      * rewrite <- app_assoc. f_equal.
Qed.

End Callbacks.


(** ** Histories *)

Lemma writes_app t1 t2 : writes (t1 ++ t2) = writes t1 ++ writes t2.
Proof. apply omap_app. Qed.

Lemma notifications_app t1 t2 :
  notifications (t1 ++ t2) = notifications t1 ++ notifications t2.
Proof. apply omap_app. Qed.

Lemma writes_Wrote b (l : list TreeDict) :
  writes (Wrote b <$> l) = (fun d => (b, d)) <$> l.
Proof. induction l as [|d l IH]; [done|]. simpl. f_equal. exact IH. Qed.

Lemma notifications_Wrote b (l : list TreeDict) :
  notifications (Wrote b <$> l) = [].
Proof. by induction l. Qed.

Lemma publish_tree_update_writes window b scope w :
  writes (trace (publish_tree_update window b scope w)) = writes (trace w).
Proof.
  unfold publish_tree_update. destruct window as [win|]; [|done].
  destruct (window_truthy (Some win)); [|done].
  cbn [trace]. rewrite writes_app. simpl. apply app_nil_r.
Qed.

(** ** The text-change callback on a supported scope *)

Lemma on_text_changed_async_supported monotonic view changes w scope language :
  check_scope w (view_syntax view) = Some scope →
  SCOPE_TO_LANGUAGE w !! scope = Some language →
  changes ≠ [] →
  on_text_changed_async monotonic view changes w =
  Returned
    (trim_cached_trees MAX_CACHED_TREES
       (publish_tree_update (view_window view) (view_buffer_id view) scope
          (mkWorld (SCOPE_TO_LANGUAGE w)
             (<[view_buffer_id view :=
                  mkTreeDict (tree_to_store w view language)
                    (monotonic (clock w + length changes - 1)%nat)]>
                (BUFFER_ID_TO_TREE w))
             (clock w + length changes)%nat
             (trace w ++
                (Wrote (view_buffer_id view) <$>
                   stamps monotonic (tree_to_store w view language) (clock w)
                     (length changes)))))).
Proof.
  intros Hs Hl Hne. unfold on_text_changed_async. rewrite Hs.
  by rewrite (apply_changes_supported monotonic view scope language).
Qed.

(** A fresh entry survives the trim that follows its write. *)
Lemma write_outlives fuel (c : gmap Z TreeDict) b d :
  (size c ≤ MAX_CACHED_TREES)%nat → outlives c b d →
  trim_loop fuel (<[b := d]> c) !! b = Some d.
Proof.
  intros Hs Ho. pose proof (map_size_insert b d c) as Hi.
  apply trim_loop_keeps.
  - destruct (c !! b); simpl in Hi; lia.
  - apply lookup_insert_eq.
  - destruct Ho as [Hroom|[[d0 Hb]|(b' & d' & Hne & Hb' & Hlt)]].
    + left. destruct (c !! b); simpl in Hi; lia.
    + left. rewrite Hb in Hi. simpl in Hi. lia.
    + right. exists b', d'. split; [done|]. split; [|done].
      by rewrite lookup_insert_ne.
Qed.

(** ** C1: text changes and the cached tree *)

(** Whatever the change, [edit] hands back the tree it was given. *)
Lemma edit_returns_tree w scope change t t' :
  edit w scope change t = Some t' → t' = t.
Proof.
  unfold edit. destruct (SCOPE_TO_LANGUAGE w !! scope); congruence.
Qed.

(** C1.  The specification asks that an edit of a cached buffer leaves in
    the cache a tree of the text after the edit.  The code does not: buffer
    5 is loaded with the text "x", then "y" is inserted at offset 0, so the
    buffer reads "yx"; the callback stores the tree of "x" again, because
    [edit] returns the tree it is given. *)
Theorem edit_leaves_cached_tree_stale :
  let change := mkTextChange 0 0 "y" in
  let w :=
    run Z.of_nat
      [Loaded (python_view 5 "x" (Some (mkWindow 1)));
       TextChanged
         (python_view 5 (apply_text_change change "x") (Some (mkWindow 1)))
         [change]]
      python_world in
  apply_text_change change "x" = "yx" ∧
  tree_source ∘ tree <$> BUFFER_ID_TO_TREE w !! 5 = Some "x" ∧
  edit python_world "source.python" change (mkTree python_language "x")
    = Some (mkTree python_language "x").
Proof. vm_compute. done. Qed.

(** ** C8: the argument of [trim_cached_trees] *)

(** C8.  The specification asks that the eviction trims down to its
    argument.  The code does not: with buffers 1, 2 and 3 cached at times
    10, 20 and 30, [trim_cached_trees(2)] removes nothing, because the loop
    compares with [MAX_CACHED_TREES] and not with [size]. *)
Theorem trim_cached_trees_ignores_size :
  let w := mkWorld ∅ (cache_of [(1, 10); (2, 20); (3, 30)]) 0 [] in
  trim_cached_trees 2 w = w ∧
  size (BUFFER_ID_TO_TREE (trim_cached_trees 2 w)) = 3%nat ∧
  is_Some (BUFFER_ID_TO_TREE (trim_cached_trees 2 w) !! 1).
Proof.
  intros w. split; [|split].
  - apply trim_cached_trees_id. vm_compute. lia.
  - by vm_compute.
  - vm_compute. eauto.
Qed.

(** ** C3: what one eviction removes *)



(** ** C10: a view without a window *)

(** C10.  With no window, [publish_tree_update] returns the state it was
    given; a full parse of a view that has no window writes its entry,
    runs no command, and ends in the same state as with publishing switched
    off; a text change of such a view writes and runs no command either. *)
Theorem publish_without_window_does_nothing
    (monotonic : nat → Z) (view : View) (changes : list TextChange)
    (w : World) (scope : ScopeType) (language : Language)
    (buffer_id : Z) (s : string) :
  view_window view = None →
  check_scope w (view_syntax view) = Some scope →
  SCOPE_TO_LANGUAGE w !! scope = Some language →
  changes ≠ [] →
  let b := view_buffer_id view in
  let d := mkTreeDict (mkTree language (view_text view))
             (monotonic (clock w)) in
  publish_tree_update None buffer_id s w = w ∧
  (∃ w', parse_view monotonic view true w = Returned w' ∧
         parse_view monotonic view false w = Returned w' ∧
         trace w' = trace w ++ [Wrote b d] ∧
         ((size (BUFFER_ID_TO_TREE w) ≤ MAX_CACHED_TREES)%nat →
          outlives (BUFFER_ID_TO_TREE w) b d →
          BUFFER_ID_TO_TREE w' !! b = Some d)) ∧
  (∃ w', on_text_changed_async monotonic view changes w = Returned w' ∧
         trace w' =
           trace w ++
             (Wrote b <$>
                stamps monotonic (tree_to_store w view language) (clock w)
                  (length changes))).
Proof.
  intros Hwin Hs Hl Hne b d. split; [done|]. split.
  - eexists. split; [|split; [|split]].
    + rewrite (parse_view_supported _ _ _ _ _ _ Hs Hl). rewrite Hwin.
      reflexivity.
    + by rewrite (parse_view_supported _ _ _ _ _ _ Hs Hl).
    + done.
    + intros Hsz Ho. simpl. by apply write_outlives.
  - eexists. split.
    + rewrite (on_text_changed_async_supported _ _ _ _ _ _ Hs Hl Hne).
      rewrite Hwin. reflexivity.
    + done.
Qed.

Lemma publish_without_window_does_nothing_witness :
  let view := python_view 5 "x = 1" None in
  let changes := [mkTextChange 0 0 "x"] in
  let d := mkTreeDict (mkTree python_language "x = 1") 0 in
  publish_tree_update None 5 "source.python" python_world = python_world ∧
  (∃ w', parse_view Z.of_nat view true python_world = Returned w' ∧
         parse_view Z.of_nat view false python_world = Returned w' ∧
         trace w' = trace python_world ++ [Wrote 5 d] ∧
         ((size (BUFFER_ID_TO_TREE python_world) ≤ MAX_CACHED_TREES)%nat →
          outlives (BUFFER_ID_TO_TREE python_world) 5 d →
          BUFFER_ID_TO_TREE w' !! 5 = Some d)) ∧
  (∃ w', on_text_changed_async Z.of_nat view changes python_world
           = Returned w' ∧
         trace w' =
           trace python_world ++
             (Wrote 5 <$>
                stamps Z.of_nat
                  (tree_to_store python_world view python_language)
                  (clock python_world) (length changes))).
Proof.
  intros view changes d.
  apply (publish_without_window_does_nothing Z.of_nat view changes
           python_world "source.python" python_language 5 "source.python");
    [reflexivity | reflexivity | reflexivity | discriminate].
Defined.

(** ** C9: reload and revert *)

(** C9.  In a state that respects the capacity, a reload or a revert of a
    view with a supported scope returns normally after one write of the
    parse of the whole text; when the buffer had an entry, or the new entry
    is otherwise not the one evicted, the cache then holds the new tree
    under the current clock reading, whatever the entry was before.  A load
    or an activation of a buffer that has an entry changes nothing. *)
Theorem reload_and_revert_reparse
    (monotonic : nat → Z) (view : View) (w : World)
    (scope : ScopeType) (language : Language) :
  check_scope w (view_syntax view) = Some scope →
  SCOPE_TO_LANGUAGE w !! scope = Some language →
  (size (BUFFER_ID_TO_TREE w) ≤ MAX_CACHED_TREES)%nat →
  let b := view_buffer_id view in
  let d := mkTreeDict (mkTree language (view_text view))
             (monotonic (clock w)) in
  (∃ w', on_reload_async monotonic view w = Returned w' ∧
         on_revert_async monotonic view w = Returned w' ∧
         writes (trace w') = writes (trace w) ++ [(b, d)] ∧
         (outlives (BUFFER_ID_TO_TREE w) b d →
          BUFFER_ID_TO_TREE w' !! b = Some d) ∧
         (is_Some (BUFFER_ID_TO_TREE w !! b) →
          BUFFER_ID_TO_TREE w' !! b = Some d)) ∧
  (is_Some (BUFFER_ID_TO_TREE w !! b) →
   on_load_async monotonic view w = Returned w ∧
   on_activated_async monotonic view w = Returned w).
Proof.
  intros Hs Hl Hsz b d. split.
  - unfold on_reload_async, on_revert_async, handle_load.
    rewrite (parse_view_supported _ _ _ _ _ _ Hs Hl).
    eexists. split; [reflexivity|]. split; [reflexivity|].
    assert (∀ o, outlives (BUFFER_ID_TO_TREE w) b d →
                 BUFFER_ID_TO_TREE
                   (trim_cached_trees MAX_CACHED_TREES
                      (publish_tree_update o b scope
                         (cache_write monotonic b
                            (mkTree language (view_text view)) w))) !! b
                 = Some d) as Hkeep.
    { intros o Ho. simpl.
      destruct (publish_tree_update_frame o b scope
                  (cache_write monotonic b
                     (mkTree language (view_text view)) w))
        as (_ & -> & _).
      by apply write_outlives. }
    split; [|split].
    + rewrite (proj2 (proj2 (trim_cached_trees_frame _ _))).
      rewrite publish_tree_update_writes, cache_write_eq. cbn [trace].
      by rewrite writes_app.
    + apply Hkeep.
    + intros Hb. apply Hkeep. right. by left.
  - intros [d0 Hb]. unfold on_load_async, on_activated_async.
    fold b. by rewrite Hb.
Qed.

Lemma reload_and_revert_reparse_witness :
  let view := python_view 5 "x = 2" (Some (mkWindow 1)) in
  let w := world_of
             (on_load_async Z.of_nat
                (python_view 5 "x = 1" (Some (mkWindow 1))) python_world) in
  let d := mkTreeDict (mkTree python_language "x = 2") 1 in
  (∃ w', on_reload_async Z.of_nat view w = Returned w' ∧
         on_revert_async Z.of_nat view w = Returned w' ∧
         writes (trace w') = writes (trace w) ++ [(5, d)] ∧
         (outlives (BUFFER_ID_TO_TREE w) 5 d →
          BUFFER_ID_TO_TREE w' !! 5 = Some d) ∧
         (is_Some (BUFFER_ID_TO_TREE w !! 5) →
          BUFFER_ID_TO_TREE w' !! 5 = Some d)) ∧
  (is_Some (BUFFER_ID_TO_TREE w !! 5) →
   on_load_async Z.of_nat view w = Returned w ∧
   on_activated_async Z.of_nat view w = Returned w).
Proof.
  intros view w d.
  apply (reload_and_revert_reparse Z.of_nat view w "source.python"
           python_language);
    [reflexivity | reflexivity | vm_compute; lia].
Defined.

(** ** C5: a text change of a buffer that is not cached *)

(** C5, as stated, fails.  On a clock that returns the same reading, 32
    buffers, 1 to 32, are loaded and fill the cache; a text change then
    comes for buffer 0, which has no entry.  The callback parses the whole
    text and writes the entry, and the trim that follows evicts it: it has
    the timestamp of all the others and the smallest buffer id.  The tree
    is not cached afterwards.  Nor is anything parsed or cached when the
    scope of the buffer is not registered, or when the event carries no
    change. *)
Lemma fresh_parse_evicted_on_clock_tie :
  let window := Some (mkWindow 1) in
  let loads :=
    (fun i => Loaded (python_view (Z.of_nat i) "x" window)) <$> seq 1 32 in
  let w := run (fun _ => 7) loads python_world in
  let w' :=
    world_of
      (on_text_changed_async (fun _ => 7) (python_view 0 "yx" window)
         [mkTextChange 0 0 "y"] w) in
  (size (BUFFER_ID_TO_TREE w) = 32%nat ∧
   BUFFER_ID_TO_TREE w !! 0 = None ∧
   writes (trace w') =
     writes (trace w) ++ [(0, mkTreeDict (mkTree python_language "yx") 7)] ∧
   BUFFER_ID_TO_TREE w' !! 0 = None) ∧
  on_text_changed_async Z.of_nat
    (mkView 7 (Some "source.cobol") "x" window) [mkTextChange 0 0 "x"]
    python_world = Returned python_world ∧
  BUFFER_ID_TO_TREE
    (world_of
       (on_text_changed_async Z.of_nat (python_view 7 "x" window) []
          python_world)) !! 7 = None.
Proof. vm_compute. done. Qed.

(** C5, amended.  In a state that respects the capacity, a text change with
    at least one change, for a buffer with a supported scope and no entry,
    returns normally; every write it makes stores the parse of the whole
    current text of the view, and that tree is cached afterwards when the
    cache had room for it or holds an entry that is older than the new one
    (smaller timestamp, or equal timestamp and smaller buffer id). *)
Theorem text_change_of_uncached_buffer_parses
    (monotonic : nat → Z) (view : View) (changes : list TextChange)
    (w : World) (scope : ScopeType) (language : Language) :
  check_scope w (view_syntax view) = Some scope →
  SCOPE_TO_LANGUAGE w !! scope = Some language →
  BUFFER_ID_TO_TREE w !! view_buffer_id view = None →
  changes ≠ [] →
  (size (BUFFER_ID_TO_TREE w) ≤ MAX_CACHED_TREES)%nat →
  let b := view_buffer_id view in
  let t := mkTree language (view_text view) in
  let d := mkTreeDict t (monotonic (clock w + length changes - 1)%nat) in
  ∃ w', on_text_changed_async monotonic view changes w = Returned w' ∧
        writes (trace w') =
          writes (trace w) ++
            ((fun d => (b, d)) <$>
               stamps monotonic t (clock w) (length changes)) ∧
        (outlives (BUFFER_ID_TO_TREE w) b d →
         BUFFER_ID_TO_TREE w' !! b = Some d).
Proof.
  intros Hs Hl Hb Hne Hsz b t d.
  rewrite (on_text_changed_async_supported _ _ _ _ _ _ Hs Hl Hne).
  unfold tree_to_store. rewrite Hb. fold b t.
  eexists. split; [reflexivity|]. split.
  - rewrite (proj2 (proj2 (trim_cached_trees_frame _ _))).
    rewrite publish_tree_update_writes. cbn [trace].
    by rewrite writes_app, writes_Wrote.
  - intros Ho. simpl.
    match goal with
    | |- context [publish_tree_update ?o ?x ?y ?z] =>
        destruct (publish_tree_update_frame o x y z) as (_ & -> & _)
    end.
    by apply write_outlives.
Qed.

Lemma text_change_of_uncached_buffer_parses_witness :
  let view := python_view 7 "yx" (Some (mkWindow 1)) in
  let changes := [mkTextChange 0 0 "y"] in
  let t := mkTree python_language "yx" in
  let d := mkTreeDict t 0 in
  ∃ w', on_text_changed_async Z.of_nat view changes python_world
          = Returned w' ∧
        writes (trace w') =
          writes (trace python_world) ++
            ((fun d => (7, d)) <$> stamps Z.of_nat t 0 1) ∧
        (outlives (BUFFER_ID_TO_TREE python_world) 7 d →
         BUFFER_ID_TO_TREE w' !! 7 = Some d).
Proof.
  intros view changes t d.
  apply (text_change_of_uncached_buffer_parses Z.of_nat view changes
           python_world "source.python" python_language);
    [reflexivity | reflexivity | reflexivity | discriminate
    | vm_compute; lia].
Defined.

(** ** [load_languages] by cases *)

Lemma load_languages_provision monotonic names env active_view w :
  load_languages monotonic names env active_view w =
  match provision names env with
  | None => Raised w
  | Some files =>
      let w1 := instantiate_languages names files w in
      match active_view with
      | None => Returned w1
      | Some view =>
          match BUFFER_ID_TO_TREE w1 !! view_buffer_id view with
          | None => parse_view monotonic view false w1
          | Some _ => Returned w1
          end
      end
  end.
Proof.
  unfold load_languages, provision.
  destruct (clone_languages names (listdir_clone env)); [|done].
  destruct (build_languages names env); [|done].
  by destruct (listdir_instantiate env).
Qed.

(** ** C6: notifications after writes *)

(** C6, as stated, fails.  A text change carrying two changes writes the
    entry of buffer 5 twice and runs one command, after the second write:
    the first write has no notification of its own. *)
Lemma two_changes_one_notification :
  let w' :=
    world_of
      (on_text_changed_async Z.of_nat
         (python_view 5 "zyx" (Some (mkWindow 1)))
         [mkTextChange 0 0 "y"; mkTextChange 0 0 "z"] python_world) in
  every_write_notified (trace w') = false ∧
  length (writes (trace w')) = 2%nat ∧
  length (notifications (trace w')) = 1%nat.
Proof. vm_compute. done. Qed.

(** C6, amended.  For a view with a supported scope and a window that is
    true: a full parse with publishing on makes one write and then runs one
    command, whose arguments are the buffer id and the scope; a text change
    with [n] changes, [n] at least 1, makes [n] writes and then runs that
    one command.  In any state and for any active view: when the cloning,
    the building and the listing of [load_languages] do not raise, the full
    parse it makes of an active view that has no entry and a scope
    registered by then, with publishing off, makes its write and runs no
    command; when one of them raises, [load_languages] ends with the state
    unchanged. *)
Theorem one_notification_per_publishing_callback
    (monotonic : nat → Z) (view : View) (changes : list TextChange)
    (w : World) (scope : ScopeType) (language : Language) (win : Window) :
  check_scope w (view_syntax view) = Some scope →
  SCOPE_TO_LANGUAGE w !! scope = Some language →
  view_window view = Some win →
  window_truthy (Some win) = true →
  changes ≠ [] →
  let b := view_buffer_id view in
  let d := mkTreeDict (mkTree language (view_text view))
             (monotonic (clock w)) in
  let args := mkUpdateTreeArgs b scope in
  trace (world_of (parse_view monotonic view true w))
    = trace w ++ [Wrote b d; RanCommand win args] ∧
  (∃ ds, length ds = length changes ∧
         trace (world_of (on_text_changed_async monotonic view changes w))
           = trace w ++ (Wrote b <$> ds) ++ [RanCommand win args]) ∧
  (∀ w0 names env files active scope' language',
     provision names env = Some files →
     let w1 := instantiate_languages names files w0 in
     check_scope w1 (view_syntax active) = Some scope' →
     SCOPE_TO_LANGUAGE w1 !! scope' = Some language' →
     BUFFER_ID_TO_TREE w0 !! view_buffer_id active = None →
     trace (world_of (load_languages monotonic names env (Some active) w0))
       = trace w0 ++
           [Wrote (view_buffer_id active)
              (mkTreeDict (mkTree language' (view_text active))
                 (monotonic (clock w0)))]) ∧
  (∀ w0 names env active,
     provision names env = None →
     load_languages monotonic names env active w0 = Raised w0).
Proof.
  intros Hs Hl Hwin Htrue Hne b d args. split; [|split; [|split]].
  - rewrite (parse_view_supported _ _ _ _ _ _ Hs Hl). cbn [world_of].
    rewrite (proj2 (proj2 (trim_cached_trees_frame _ _))).
    rewrite Hwin, (publish_tree_update_truthy _ _ _ _ Htrue).
    rewrite cache_write_eq. cbn [trace]. by rewrite <- app_assoc.
  - exists (stamps monotonic (tree_to_store w view language) (clock w)
              (length changes)).
    split; [apply stamps_length|].
    rewrite (on_text_changed_async_supported _ _ _ _ _ _ Hs Hl Hne).
    cbn [world_of].
    rewrite (proj2 (proj2 (trim_cached_trees_frame _ _))).
    rewrite Hwin, (publish_tree_update_truthy _ _ _ _ Htrue).
    cbn [trace]. by rewrite <- app_assoc.
  - intros w0 names env files active scope' language' Hp w1 Hs' Hl' Hb.
    rewrite load_languages_provision, Hp. cbn zeta. fold w1.
    change (BUFFER_ID_TO_TREE w1) with (BUFFER_ID_TO_TREE w0).
    rewrite Hb.
    by rewrite (parse_view_supported _ _ _ _ _ _ Hs' Hl').
  - intros w0 names env active Hp.
    by rewrite load_languages_provision, Hp.
Qed.

Lemma one_notification_per_publishing_callback_witness :
  let view := python_view 5 "x = 1" (Some (mkWindow 1)) in
  let changes := [mkTextChange 0 0 "x"; mkTextChange 1 1 " = 1"] in
  let d := mkTreeDict (mkTree python_language "x = 1") 0 in
  let args := mkUpdateTreeArgs 5 "source.python" in
  trace (world_of (parse_view Z.of_nat view true python_world))
    = trace python_world ++ [Wrote 5 d; RanCommand (mkWindow 1) args] ∧
  (∃ ds, length ds = length changes ∧
         trace (world_of
                  (on_text_changed_async Z.of_nat view changes python_world))
           = trace python_world ++ (Wrote 5 <$> ds)
               ++ [RanCommand (mkWindow 1) args]) ∧
  trace (world_of
           (load_languages Z.of_nat ["cobol"] python_disk (Some view)
              python_world))
    = trace python_world ++ [Wrote 5 d] ∧
  load_languages Z.of_nat ["python"] python_disk (Some view) python_world
    = Raised python_world.
Proof.
  intros view changes d args.
  destruct (one_notification_per_publishing_callback Z.of_nat view changes
              python_world "source.python" python_language (mkWindow 1))
    as (H1 & H2 & H3 & H4);
    [reflexivity | reflexivity | reflexivity | reflexivity | discriminate |].
  split; [exact H1|]. split; [exact H2|]. split.
  - apply (H3 python_world ["cobol"] python_disk ["language-python.so"]
             view "source.python" python_language);
      reflexivity.
  - apply (H4 python_world ["python"] python_disk (Some view)). reflexivity.
Defined.

(** ** The items of a dictionary under one key *)

(** The items of a dictionary under a key it holds: that one item. *)
Lemma entries_for_Some (c : gmap Z TreeDict) b d :
  c !! b = Some d → entries_for b c = [(b, d)].
Proof.
  intros Hb. unfold entries_for. apply Permutation_singleton_r.
  rewrite <- (insert_delete_id c b d Hb) at 1.
  rewrite map_to_list_insert by apply lookup_delete_eq.
  rewrite filter_cons_True by done. f_equiv.
  assert (filter (λ item : Z * TreeDict, item.1 = b)
            (map_to_list (delete b c)) = []) as ->; [|done].
  apply elem_of_nil_inv. intros [b' d'] Hin.
  apply list_elem_of_filter in Hin as [Heq Hin].
  apply elem_of_map_to_list in Hin. simpl in Heq. subst b'.
  by rewrite lookup_delete_eq in Hin.
Qed.

(** ** What a callback does, by cases *)

Lemma parse_view_cases monotonic view p w :
  (check_scope w (view_syntax view) = None ∧
   parse_view monotonic view p w = Returned w) ∨
  (∃ scope language,
     check_scope w (view_syntax view) = Some scope ∧
     SCOPE_TO_LANGUAGE w !! scope = Some language ∧
     parse_view monotonic view p w =
     Returned
       (trim_cached_trees MAX_CACHED_TREES
          ((if p then publish_tree_update (view_window view)
                        (view_buffer_id view) scope
            else id)
             (cache_write monotonic (view_buffer_id view)
                (mkTree language (view_text view)) w)))).
Proof.
  destruct (check_scope w (view_syntax view)) as [scope|] eqn:Hs.
  - right. destruct (check_scope_registered _ _ _ Hs) as [language Hl].
    exists scope, language. split; [done|]. split; [done|].
    by apply parse_view_supported.
  - left. split; [done|]. by apply parse_view_unsupported.
Qed.

Lemma on_text_changed_async_cases monotonic view changes w :
  (check_scope w (view_syntax view) = None ∧
   on_text_changed_async monotonic view changes w = Returned w) ∨
  (∃ scope w1,
     check_scope w (view_syntax view) = Some scope ∧
     on_text_changed_async monotonic view changes w =
     Returned
       (trim_cached_trees MAX_CACHED_TREES
          (publish_tree_update (view_window view) (view_buffer_id view)
             scope w1)) ∧
     (BUFFER_ID_TO_TREE w1 = BUFFER_ID_TO_TREE w ∨
      ∃ d, BUFFER_ID_TO_TREE w1 =
           <[view_buffer_id view := d]> (BUFFER_ID_TO_TREE w))).
Proof.
  destruct (check_scope w (view_syntax view)) as [scope|] eqn:Hs.
  - right. destruct (check_scope_registered _ _ _ Hs) as [language Hl].
    destruct changes as [|change rest].
    + exists scope, w. unfold on_text_changed_async. rewrite Hs. simpl.
      split; [done|]. split; [done|]. by left.
    + eexists scope, _. split; [done|]. split.
      * by apply (on_text_changed_async_supported _ _ _ _ _ language).
      * right. eexists. reflexivity.
  - left. split; [done|]. unfold on_text_changed_async. by rewrite Hs.
Qed.

(** X13.  The callbacks of the two listeners never raise: the [KeyError]
    of [parse] and [edit] cannot happen, because the scope they look up has
    passed [check_scope].  [load_languages] raises exactly when its
    cloning, building or listing raises, and returns otherwise.  Whatever
    raises leaves the state as it was. *)
Theorem callbacks_raise_only_in_provisioning
    (monotonic : nat → Z) (e : event) (w : World) :
  (listener_event e → ∃ w', handle monotonic e w = Returned w') ∧
  (∀ names env v,
     e = LanguagesLoaded names env v →
     (provision names env = None → handle monotonic e w = Raised w) ∧
     (is_Some (provision names env) →
      ∃ w', handle monotonic e w = Returned w')) ∧
  (∀ w', handle monotonic e w = Raised w' → w' = w).
Proof.
  assert (∀ view p w0, ∃ w', parse_view monotonic view p w0 = Returned w')
    as Hpv.
  { intros view p w0.
    destruct (parse_view_cases monotonic view p w0)
      as [[_ ->]|(? & ? & _ & _ & ->)]; eauto. }
  assert (∀ names env v,
            (provision names env = None →
             load_languages monotonic names env v w = Raised w) ∧
            (is_Some (provision names env) →
             ∃ w', load_languages monotonic names env v w = Returned w'))
    as Hll.
  { intros names env v. rewrite load_languages_provision. split.
    - by intros ->.
    - intros [files ->]. cbn zeta. destruct v as [v|]; [|eauto].
      destruct (BUFFER_ID_TO_TREE _ !! view_buffer_id v); eauto. }
  assert (listener_event e → ∃ w', handle monotonic e w = Returned w')
    as Hlisten.
  { destruct e as [v|v|v|v|v changes|names env v]; simpl; intros He.
    - unfold on_activated_async, handle_load.
      destruct (BUFFER_ID_TO_TREE w !! view_buffer_id v); eauto.
    - unfold on_load_async, handle_load.
      destruct (BUFFER_ID_TO_TREE w !! view_buffer_id v); eauto.
    - apply Hpv.
    - apply Hpv.
    - destruct (on_text_changed_async_cases monotonic v changes w)
        as [[_ ->]|(? & ? & _ & -> & _)]; eauto.
    - done. }
  split; [done|]. split.
  - intros names env v ->. apply Hll.
  - intros w' Hr. destruct e as [v|v|v|v|v changes|names env v];
      try (destruct (Hlisten I) as [w1 Hw1]; congruence).
    simpl in Hr. destruct (Hll names env v) as [Hnone Hsome].
    destruct (provision names env) as [files|] eqn:Hp.
    + destruct (Hsome (ltac:(eauto))) as [w1 Hw1]. congruence.
    + rewrite (Hnone eq_refl) in Hr. congruence.
Qed.

(** ** C4: unsupported scopes *)

Lemma parse_view_cache monotonic view p w b d :
  BUFFER_ID_TO_TREE (world_of (parse_view monotonic view p w)) !! b
    = Some d →
  BUFFER_ID_TO_TREE w !! b = Some d ∨
  (view_buffer_id view = b ∧ is_Some (check_scope w (view_syntax view))).
Proof.
  destruct (parse_view_cases monotonic view p w)
    as [[_ ->]|(scope & language & Hs & _ & ->)]; simpl world_of.
  - by left.
  - intros Hb.
    pose proof (lookup_weaken _ _ _ _ Hb (trim_cached_trees_subseteq _ _))
      as Hb'.
    assert (BUFFER_ID_TO_TREE
              ((if p
                then publish_tree_update (view_window view)
                       (view_buffer_id view) scope
                else id)
                 (cache_write monotonic (view_buffer_id view)
                    (mkTree language (view_text view)) w)) =
            <[view_buffer_id view :=
                mkTreeDict (mkTree language (view_text view))
                  (monotonic (clock w))]> (BUFFER_ID_TO_TREE w)) as Hc.
    { destruct p; [|done].
      by rewrite (proj1 (proj2 (publish_tree_update_frame _ _ _ _))). }
    rewrite Hc in Hb'.
    apply lookup_insert_Some in Hb' as [[-> _]|[_ ?]]; [|by left].
    right. rewrite Hs. eauto.
Qed.

Lemma handle_cache monotonic e w b d :
  BUFFER_ID_TO_TREE (world_of (handle monotonic e w)) !! b = Some d →
  BUFFER_ID_TO_TREE w !! b = Some d ∨
  ∃ v, event_view e = Some v ∧ view_buffer_id v = b ∧
       is_Some (check_scope (registry_seen e w) (view_syntax v)).
Proof.
  destruct e as [v|v|v|v|v changes|names env ov];
    cbn [handle event_view registry_seen].
  - unfold on_activated_async, handle_load.
    destruct (BUFFER_ID_TO_TREE w !! view_buffer_id v); [by left|].
    intros H. apply parse_view_cache in H as [?|[? ?]]; eauto.
  - unfold on_load_async, handle_load.
    destruct (BUFFER_ID_TO_TREE w !! view_buffer_id v); [by left|].
    intros H. apply parse_view_cache in H as [?|[? ?]]; eauto.
  - intros H. apply parse_view_cache in H as [?|[? ?]]; eauto.
  - intros H. apply parse_view_cache in H as [?|[? ?]]; eauto.
  - destruct (on_text_changed_async_cases monotonic v changes w)
      as [[_ ->]|(scope & w1 & Hs & -> & Hc)]; simpl world_of;
      [by left|].
    intros Hb.
    pose proof (lookup_weaken _ _ _ _ Hb (trim_cached_trees_subseteq _ _))
      as Hb'.
    rewrite (proj1 (proj2 (publish_tree_update_frame _ _ _ _))) in Hb'.
    destruct Hc as [Hc|[d0 Hc]]; rewrite Hc in Hb'; [by left|].
    apply lookup_insert_Some in Hb' as [[<- _]|[_ ?]]; [|by left].
    right. exists v. rewrite Hs. eauto.
  - rewrite load_languages_provision.
    destruct (provision names env) as [files|]; [cbn zeta|by left].
    destruct ov as [v|]; [|by left].
    change (BUFFER_ID_TO_TREE (instantiate_languages names files w))
      with (BUFFER_ID_TO_TREE w).
    destruct (BUFFER_ID_TO_TREE w !! view_buffer_id v); [by left|].
    intros H. apply parse_view_cache in H as [?|[? ?]]; eauto.
Qed.

(** C4, as stated, fails.  Buffer 5 is loaded as python and gets its entry;
    its syntax then becomes plain text, which is not registered, and the
    buffer is reloaded and edited: both callbacks return at the scope
    check, and nothing removes the entry.  The scope of the buffer is
    absent and the buffer has an entry. *)
Lemma entry_outlives_supported_scope :
  let window := Some (mkWindow 1) in
  let plain text := mkView 5 (Some "text.plain") text window in
  let w :=
    run Z.of_nat
      [Loaded (python_view 5 "x" window);
       Reloaded (plain "x");
       TextChanged (plain "xy") [mkTextChange 1 1 "y"]]
      python_world in
  check_scope w (view_syntax (plain "xy")) = None ∧
  BUFFER_ID_TO_TREE w !! 5 =
    Some (mkTreeDict (mkTree python_language "x") 0).
Proof. vm_compute. done. Qed.

(** C4, amended.  A callback for a view whose scope is absent ([None],
    empty or not registered) returns with the state unchanged, on the
    lifecycle path and on the text-change path alike; and along any run in
    which the callbacks for buffer [b] always find its scope absent, a
    buffer that had no entry has none at the end. *)
Theorem unsupported_scope_never_cached
    (monotonic : nat → Z) (view : View) (p : bool)
    (changes : list TextChange) (events : list event) (b : Z) (w : World) :
  check_scope w (view_syntax view) = None →
  BUFFER_ID_TO_TREE w !! b = None →
  unresolved_throughout monotonic b events w →
  parse_view monotonic view p w = Returned w ∧
  on_text_changed_async monotonic view changes w = Returned w ∧
  on_reload_async monotonic view w = Returned w ∧
  on_revert_async monotonic view w = Returned w ∧
  world_of (on_load_async monotonic view w) = w ∧
  world_of (on_activated_async monotonic view w) = w ∧
  BUFFER_ID_TO_TREE (run monotonic events w) !! b = None.
Proof.
  intros Hs Hb Hun.
  pose proof (parse_view_unsupported monotonic view true w Hs) as Hpv.
  split; [by apply parse_view_unsupported|].
  split; [unfold on_text_changed_async; by rewrite Hs|].
  split; [done|]. split; [done|].
  split.
  { unfold on_load_async, handle_load. rewrite Hpv.
    by destruct (BUFFER_ID_TO_TREE w !! view_buffer_id view). }
  split.
  { unfold on_activated_async, handle_load. rewrite Hpv.
    by destruct (BUFFER_ID_TO_TREE w !! view_buffer_id view). }
  clear Hs Hpv. revert w Hb Hun.
  induction events as [|e rest IH]; intros w Hb Hun; [done|].
  destruct Hun as [Hhere Hrest]. simpl. apply IH; [|done].
  destruct (BUFFER_ID_TO_TREE (world_of (handle monotonic e w)) !! b)
    as [d|] eqn:Hd; [|done].
  apply handle_cache in Hd as [Hd|(v & Hv & Hvb & [s Hsome])];
    [congruence|].
  rewrite (Hhere v Hv Hvb) in Hsome. done.
Qed.

Lemma unsupported_scope_never_cached_witness :
  let cobol := mkView 9 (Some "source.cobol") "DISPLAY 1." (Some (mkWindow 1)) in
  let events :=
    [Loaded cobol;
     Loaded (python_view 5 "x = 1" (Some (mkWindow 1)));
     TextChanged cobol [mkTextChange 0 0 "D"];
     LanguagesLoaded ["cobol"] python_disk (Some cobol);
     Reloaded cobol] in
  parse_view Z.of_nat cobol true python_world = Returned python_world ∧
  on_text_changed_async Z.of_nat cobol [mkTextChange 0 0 "D"] python_world
    = Returned python_world ∧
  on_reload_async Z.of_nat cobol python_world = Returned python_world ∧
  on_revert_async Z.of_nat cobol python_world = Returned python_world ∧
  world_of (on_load_async Z.of_nat cobol python_world) = python_world ∧
  world_of (on_activated_async Z.of_nat cobol python_world) = python_world ∧
  BUFFER_ID_TO_TREE (run Z.of_nat events python_world) !! 9 = None.
Proof.
  intros cobol events.
  apply (unsupported_scope_never_cached Z.of_nat cobol true
           [mkTextChange 0 0 "D"] events 9 python_world).
  - reflexivity.
  - reflexivity.
  - repeat split; intros v [= <-] Hb; solve [reflexivity | discriminate Hb].
Defined.

(** ** C2: the capacity of the cache *)

Lemma handle_size monotonic e w :
  (size (BUFFER_ID_TO_TREE w) ≤ MAX_CACHED_TREES)%nat →
  (size (BUFFER_ID_TO_TREE (world_of (handle monotonic e w)))
     ≤ MAX_CACHED_TREES)%nat.
Proof.
  intros Hsz.
  assert (∀ view p w0,
            (size (BUFFER_ID_TO_TREE w0) ≤ MAX_CACHED_TREES)%nat →
            (size (BUFFER_ID_TO_TREE
                     (world_of (parse_view monotonic view p w0)))
               ≤ MAX_CACHED_TREES)%nat) as Hpv.
  { intros view p w0 H0.
    destruct (parse_view_cases monotonic view p w0)
      as [[_ ->]|(? & ? & _ & _ & ->)]; [done|].
    cbn [world_of]. rewrite trim_cached_trees_size. lia. }
  destruct e as [v|v|v|v|v changes|names env ov];
    cbn [handle event_view registry_seen].
  - unfold on_activated_async, handle_load.
    destruct (BUFFER_ID_TO_TREE w !! view_buffer_id v); [done|by apply Hpv].
  - unfold on_load_async, handle_load.
    destruct (BUFFER_ID_TO_TREE w !! view_buffer_id v); [done|by apply Hpv].
  - by apply Hpv.
  - by apply Hpv.
  - destruct (on_text_changed_async_cases monotonic v changes w)
      as [[_ ->]|(? & ? & _ & -> & _)]; [done|].
    cbn [world_of]. rewrite trim_cached_trees_size. lia.
  - rewrite load_languages_provision.
    destruct (provision names env) as [files|]; [cbn zeta|done].
    destruct ov as [v|]; [|done].
    destruct (BUFFER_ID_TO_TREE _ !! view_buffer_id v); [done|by apply Hpv].
Qed.

Lemma run_size monotonic events w :
  (size (BUFFER_ID_TO_TREE w) ≤ MAX_CACHED_TREES)%nat →
  (size (BUFFER_ID_TO_TREE (run monotonic events w)) ≤ MAX_CACHED_TREES)%nat.
Proof.
  revert w. induction events as [|e rest IH]; intros w Hsz; [done|].
  simpl. apply IH. by apply handle_size.
Qed.

(** A cache with one item too many loses exactly its oldest item. *)
Lemma trim_loop_one_over fuel (c : gmap Z TreeDict) :
  size c = S MAX_CACHED_TREES →
  ∃ m dm, c !! m = Some dm ∧ trim_loop (S fuel) c = delete m c ∧
          ∀ b' d', c !! b' = Some d' → b' ≠ m →
                   key_lt (updated_s dm, m) (updated_s d', b').
Proof.
  intros Hsz.
  assert (MAX_CACHED_TREES < size c)%nat as Hc by lia.
  destruct (evict_oldest_spec c (over_capacity_nonempty c Hc))
    as (m & dm & Hm & He & Hmin).
  exists m, dm. split; [done|]. split; [|done].
  simpl. case_decide; [|lia]. rewrite He. apply trim_loop_id.
  rewrite map_size_delete_Some by eauto. lia.
Qed.

Lemma keeps_newest_step (all c : gmap Z TreeDict) b d :
  keeps_newest all c → all !! b = None →
  keeps_newest (<[b := d]> all)
    (trim_loop (size (<[b := d]> c)) (<[b := d]> c)).
Proof.
  intros (Hsub & Hsz & Hold) Hb.
  assert (c !! b = None) as Hcb.
  { destruct (c !! b) as [x|] eqn:E; [|done].
    pose proof (lookup_weaken _ _ _ _ E Hsub). congruence. }
  pose proof (map_size_insert_None b d c Hcb) as Hs1.
  pose proof (map_size_insert_None b d all Hb) as Hs2.
  assert (<[b := d]> c ⊆ <[b := d]> all) as Hsub1 by by apply insert_mono.
  split; [|split].
  - etrans; [apply trim_loop_subseteq | done].
  - rewrite trim_loop_size by lia. lia.
  - intros x dx y dy Hx Hgone Hy.
    pose proof (lookup_weaken _ _ _ _ Hy (trim_loop_subseteq _ _)) as Hy1.
    destruct (<[b := d]> c !! x) as [dx'|] eqn:E1.
    + pose proof (lookup_weaken _ _ _ _ E1 Hsub1) as E2.
      assert (dx' = dx) as -> by congruence.
      by apply (trim_loop_evicted_older _ _ x dx y dy E1 Hgone Hy).
    + apply lookup_insert_None in E1 as [Hcx Hne].
      rewrite lookup_insert_ne in Hx by done.
      destruct (decide (y = b)) as [->|Hyb].
      * rewrite lookup_insert_eq in Hy1. assert (dy = d) as -> by congruence.
        assert (size c < size all)%nat as Hlt.
        { destruct (decide (size all ≤ size c)%nat) as [Hle|]; [|lia].
          pose proof (map_subseteq_size_eq _ _ Hsub Hle). congruence. }
        destruct (trim_loop_one_over (size c) (<[b := d]> c))
          as (m & dm & Hm & Ht & Hmin); [lia|].
        rewrite Hs1, Ht in Hy.
        apply lookup_delete_Some in Hy as [Hmb _].
        rewrite lookup_insert_ne in Hm by done.
        eapply key_lt_trans; [by apply (Hold x dx m dm)|].
        apply Hmin; [apply lookup_insert_eq | done].
      * rewrite lookup_insert_ne in Hy1 by done.
        by apply (Hold x dx y dy).
Qed.

(** *** What a history has written *)

Lemma written_snoc_Wrote t b d :
  written (t ++ [Wrote b d]) = <[b := d]> (written t).
Proof. unfold written. by rewrite foldl_snoc. Qed.

Lemma written_snoc_RanCommand t win args :
  written (t ++ [RanCommand win args]) = written t.
Proof. unfold written. by rewrite foldl_snoc. Qed.

Lemma written_stamps monotonic t b tr k n :
  written (t ++ (Wrote b <$> stamps monotonic tr k (S n))) =
  <[b := mkTreeDict tr (monotonic (k + n)%nat)]> (written t).
Proof.
  revert t k. induction n as [|n IH]; intros t k.
  - simpl. rewrite written_snoc_Wrote. do 3 f_equal. lia.
  - rewrite stamps_cons. rewrite fmap_cons.
    rewrite (cons_middle _ t), app_assoc.
    rewrite IH, written_snoc_Wrote, insert_insert_eq. do 3 f_equal. lia.
Qed.

Lemma publish_tree_update_written window b scope w :
  written (trace (publish_tree_update window b scope w)) = written (trace w).
Proof.
  unfold publish_tree_update. destruct window as [win|]; [|done].
  destruct (window_truthy (Some win)); [|done].
  cbn [trace]. apply written_snoc_RanCommand.
Qed.

Lemma check_scope_ext w w' sc :
  SCOPE_TO_LANGUAGE w' = SCOPE_TO_LANGUAGE w →
  check_scope w' sc = check_scope w sc.
Proof. intros H. unfold check_scope. by rewrite H. Qed.

(** *** One writing event for a buffer that is not cached *)

Lemma writer_step monotonic e w v :
  writing_event e → event_view e = Some v →
  is_Some (check_scope w (view_syntax v)) →
  BUFFER_ID_TO_TREE w !! view_buffer_id v = None →
  ∃ d,
    SCOPE_TO_LANGUAGE (world_of (handle monotonic e w))
      = SCOPE_TO_LANGUAGE w ∧
    BUFFER_ID_TO_TREE (world_of (handle monotonic e w)) =
      trim_loop (size (<[view_buffer_id v := d]> (BUFFER_ID_TO_TREE w)))
        (<[view_buffer_id v := d]> (BUFFER_ID_TO_TREE w)) ∧
    written (trace (world_of (handle monotonic e w))) =
      <[view_buffer_id v := d]> (written (trace w)).
Proof.
  intros Hwr Hv [scope Hs] Hb.
  destruct (check_scope_registered _ _ _ Hs) as [language Hl].
  assert (∃ d,
    SCOPE_TO_LANGUAGE (world_of (parse_view monotonic v true w))
      = SCOPE_TO_LANGUAGE w ∧
    BUFFER_ID_TO_TREE (world_of (parse_view monotonic v true w)) =
      trim_loop (size (<[view_buffer_id v := d]> (BUFFER_ID_TO_TREE w)))
        (<[view_buffer_id v := d]> (BUFFER_ID_TO_TREE w)) ∧
    written (trace (world_of (parse_view monotonic v true w))) =
      <[view_buffer_id v := d]> (written (trace w))) as Hpv.
  { exists (mkTreeDict (mkTree language (view_text v)) (monotonic (clock w))).
    rewrite (parse_view_supported _ _ _ _ _ _ Hs Hl). cbn [world_of].
    split; [|split].
    - cbn [trim_cached_trees SCOPE_TO_LANGUAGE].
      by rewrite (proj1 (publish_tree_update_frame _ _ _ _)).
    - cbn [trim_cached_trees BUFFER_ID_TO_TREE].
      by rewrite (proj1 (proj2 (publish_tree_update_frame _ _ _ _))).
    - rewrite (proj2 (proj2 (trim_cached_trees_frame _ _))).
      rewrite publish_tree_update_written, cache_write_eq. cbn [trace].
      apply written_snoc_Wrote. }
  destruct e as [v'|v'|v'|v'|v' changes|names files v']; simpl in Hv, Hwr;
    try done; injection Hv as ->; simpl handle.
  - unfold on_activated_async, handle_load. by rewrite Hb.
  - unfold on_load_async, handle_load. by rewrite Hb.
  - done.
  - done.
  - destruct changes as [|change rest]; [done|].
    rewrite (on_text_changed_async_supported _ _ _ _ _ _ Hs Hl Hwr).
    cbn [world_of]. eexists. split; [|split].
    + cbn [trim_cached_trees SCOPE_TO_LANGUAGE].
      by rewrite (proj1 (publish_tree_update_frame _ _ _ _)).
    + cbn [trim_cached_trees BUFFER_ID_TO_TREE].
      rewrite (proj1 (proj2 (publish_tree_update_frame _ _ _ _))).
      reflexivity.
    + rewrite (proj2 (proj2 (trim_cached_trees_frame _ _))).
      rewrite publish_tree_update_written. cbn [trace length].
      rewrite written_stamps. do 3 f_equal. lia.
Qed.

(** *** A run of writing events for distinct buffers *)

Lemma writers_keep_newest monotonic events :
  ∀ w,
    Forall (supported_writer w) events →
    NoDup (event_buffers events) →
    (∀ b, b ∈ event_buffers events → written (trace w) !! b = None) →
    keeps_newest (written (trace w)) (BUFFER_ID_TO_TREE w) →
    keeps_newest (written (trace (run monotonic events w)))
      (BUFFER_ID_TO_TREE (run monotonic events w)) ∧
    size (written (trace (run monotonic events w))) =
      (size (written (trace w)) + length events)%nat.
Proof.
  induction events as [|e rest IH]; intros w Hall Hnd Hfresh Hinv.
  - simpl. split; [done|lia].
  - apply Forall_cons in Hall as [[Hwr (v & Hv & Hsup)] Hall].
    assert (event_buffers (e :: rest) = view_buffer_id v :: event_buffers rest)
      as Hbuf.
    { unfold event_buffers. simpl. by rewrite Hv. }
    rewrite Hbuf in Hnd, Hfresh. apply NoDup_cons in Hnd as [Hnotin Hnd].
    assert (written (trace w) !! view_buffer_id v = None) as Hwb.
    { apply Hfresh. left. }
    assert (BUFFER_ID_TO_TREE w !! view_buffer_id v = None) as Hcb.
    { destruct (BUFFER_ID_TO_TREE w !! view_buffer_id v) as [x|] eqn:E;
        [|done].
      pose proof (lookup_weaken _ _ _ _ E (proj1 Hinv)). congruence. }
    destruct (writer_step monotonic e w v Hwr Hv Hsup Hcb)
      as (d & Hreg & Hcache & Hwritten).
    simpl run.
    destruct (IH (world_of (handle monotonic e w))) as [Hk Hn].
    + eapply Forall_impl; [exact Hall|].
      intros e' [Hwr' (v' & Hv' & Hsup')]. split; [done|].
      exists v'. split; [done|]. by rewrite (check_scope_ext w _ _ Hreg).
    + done.
    + intros b Hin. rewrite Hwritten. rewrite lookup_insert_ne.
      * apply Hfresh. by right.
      * intros <-. done.
    + rewrite Hwritten, Hcache. by apply keeps_newest_step.
    + split; [done|]. rewrite Hn, Hwritten.
      rewrite map_size_insert_None by done. simpl. lia.
Qed.

(** C2.  From a state within the capacity, the cache holds at most
    [MAX_CACHED_TREES] entries after every callback of any run.  And when,
    from an empty cache, more than [MAX_CACHED_TREES] writing events for
    pairwise distinct buffers with supported scopes have run, each buffer
    has been written, the cache holds exactly [MAX_CACHED_TREES] of the
    entries written, and every entry it lacks has a timestamp no larger
    than every entry it holds (and a smaller buffer id when the timestamps
    are equal). *)
Theorem cache_bounded_keeps_largest_timestamps
    (monotonic : nat → Z) (events : list event) (w : World)
    (writers : list event) (w0 : World) :
  (size (BUFFER_ID_TO_TREE w) ≤ MAX_CACHED_TREES)%nat →
  BUFFER_ID_TO_TREE w0 = ∅ →
  trace w0 = [] →
  Forall (supported_writer w0) writers →
  NoDup (event_buffers writers) →
  (MAX_CACHED_TREES < length writers)%nat →
  (∀ n, (size (BUFFER_ID_TO_TREE (run monotonic (take n events) w))
           ≤ MAX_CACHED_TREES)%nat) ∧
  let w' := run monotonic writers w0 in
  let all := written (trace w') in
  size all = length writers ∧
  size (BUFFER_ID_TO_TREE w') = MAX_CACHED_TREES ∧
  BUFFER_ID_TO_TREE w' ⊆ all ∧
  ∀ b d b' d',
    all !! b = Some d → BUFFER_ID_TO_TREE w' !! b = None →
    BUFFER_ID_TO_TREE w' !! b' = Some d' →
    updated_s d ≤ updated_s d' ∧ (updated_s d = updated_s d' → b < b').
Proof.
  intros Hsz Hempty Htrace Hall Hnd Hlen. split.
  - intros n. by apply run_size.
  - destruct (writers_keep_newest monotonic writers w0)
      as [(Hsub & Hsize & Hold) Hn]; [done|done| | |].
    + intros b _. by rewrite Htrace.
    + rewrite Htrace, Hempty. split; [done|]. split; [done|].
      intros ? ? ? ? _ _ H. by rewrite lookup_empty in H.
    + rewrite Htrace in Hn. change (written []) with (∅ : gmap Z TreeDict) in Hn.
      rewrite map_size_empty in Hn. simpl in Hn.
      split; [done|]. split; [lia|]. split; [done|].
      intros b d b' d' Hb Hgone Hb'.
      pose proof (Hold b d b' d' Hb Hgone Hb') as Hlt.
      unfold key_lt in Hlt. simpl in Hlt. lia.
Qed.

Lemma cache_bounded_keeps_largest_timestamps_witness :
  let window := Some (mkWindow 1) in
  let events :=
    [Loaded (python_view 1 "x" window);
     TextChanged (python_view 1 "xy" window) [mkTextChange 1 1 "y"];
     Reverted (python_view 1 "x" None)] in
  let writers :=
    (fun i => Loaded (python_view (Z.of_nat i) "x" window)) <$> seq 0 33 in
  (∀ n, (size (BUFFER_ID_TO_TREE (run Z.of_nat (take n events) python_world))
           ≤ MAX_CACHED_TREES)%nat) ∧
  let w' := run Z.of_nat writers python_world in
  let all := written (trace w') in
  size all = length writers ∧
  size (BUFFER_ID_TO_TREE w') = MAX_CACHED_TREES ∧
  BUFFER_ID_TO_TREE w' ⊆ all ∧
  ∀ b d b' d',
    all !! b = Some d → BUFFER_ID_TO_TREE w' !! b = None →
    BUFFER_ID_TO_TREE w' !! b' = Some d' →
    updated_s d ≤ updated_s d' ∧ (updated_s d = updated_s d' → b < b').
Proof.
  intros window events writers.
  apply (cache_bounded_keeps_largest_timestamps Z.of_nat events python_world
           writers python_world).
  - vm_compute. lia.
  - reflexivity.
  - reflexivity.
  - apply Forall_fmap, Forall_forall. intros i _. split; [exact I|].
    eexists. split; [reflexivity|]. eexists. reflexivity.
  - apply (bool_decide_unpack _). vm_compute. exact I.
  - vm_compute. lia.
Defined.


(** * Further properties of the code *)

(** ** [get_so_file] *)

Lemma string_length_app (a b : string) :
  String.length (a +:+ b) = (String.length a + String.length b)%nat.
Proof. induction a as [|c a IH]; simpl; [done|]. by rewrite IH. Qed.

Lemma string_app_inj_r (a b s : string) : a +:+ s = b +:+ s → a = b.
Proof.
  revert b. induction a as [|c a IH]; intros [|c' b] H.
  - done.
  - apply (f_equal String.length) in H.
    rewrite !string_length_app in H. simpl in H. lia.
  - apply (f_equal String.length) in H.
    rewrite !string_length_app in H. simpl in H. lia.
  - simpl in H. injection H as -> H. f_equal. by apply IH.
Qed.

(** X1.  Two language names with the same [.so] file name are the same
    name: distinct languages never share a file in the build directory. *)
Theorem get_so_file_injective (a b : string) :
  get_so_file a = get_so_file b → a = b.
Proof.
  unfold get_so_file. intros H.
  apply (inj (String.app "language-")) in H.
  by apply string_app_inj_r in H.
Qed.

Lemma get_so_file_injective_witness :
  "python" = "python".
Proof.
  apply (get_so_file_injective "python" "python"). reflexivity.
Defined.

(** ** [add_path] *)

(** X2.  [add_path] puts the path on [sys.path] and keeps what was there
    in its order; calling it again changes nothing; a list without
    repetition stays without repetition; a path that was absent ends up
    first. *)
Theorem add_path_idempotent (path : string) (sys_path : list string) :
  path ∈ add_path path sys_path ∧
  add_path path (add_path path sys_path) = add_path path sys_path ∧
  (∀ q, q ∈ sys_path → q ∈ add_path path sys_path) ∧
  (∀ q, q ∈ add_path path sys_path → q = path ∨ q ∈ sys_path) ∧
  (NoDup sys_path → NoDup (add_path path sys_path)) ∧
  (path ∉ sys_path → add_path path sys_path = path :: sys_path) ∧
  (path ∈ sys_path → add_path path sys_path = sys_path).
Proof.
  unfold add_path. repeat split.
  - case_decide; [done|]. apply list_elem_of_here.
  - destruct (decide (path ∈ sys_path)) as [H|H].
    + by rewrite decide_True.
    + rewrite decide_True; [done|]. apply list_elem_of_here.
  - intros q Hq. case_decide; [done|]. by apply list_elem_of_further.
  - intros q Hq. case_decide; [by right|].
    apply elem_of_cons in Hq as [->|?]; [by left|by right].
  - intros Hnd. case_decide; [done|]. by apply NoDup_cons.
  - intros H. by rewrite decide_False.
  - intros H. by rewrite decide_True.
Qed.

(** ** [instantiate_languages] *)

Lemma assoc_elem {A : Type} (k : string) (l : list (string * A)) (v : A) :
  assoc k l = Some v → (k, v) ∈ l.
Proof.
  induction l as [|[k' v'] l IH]; simpl; [done|].
  case_decide as Hk.
  - intros [= ->]. subst k'. apply list_elem_of_here.
  - intros H. apply list_elem_of_further. by apply IH.
Qed.

(** No scope is listed under two languages of [LANGUAGE_NAME_TO_SCOPES]. *)
Lemma LANGUAGE_NAME_TO_SCOPES_disjoint n1 scopes1 n2 scopes2 s :
  (n1, scopes1) ∈ LANGUAGE_NAME_TO_SCOPES →
  (n2, scopes2) ∈ LANGUAGE_NAME_TO_SCOPES →
  s ∈ scopes1 → s ∈ scopes2 → n1 = n2.
Proof.
  assert (Forall (λ p1 : string * list ScopeType,
            Forall (λ p2 : string * list ScopeType,
              p1.1 = p2.1 ∨ Forall (λ s, s ∉ p2.2) p1.2)
              LANGUAGE_NAME_TO_SCOPES) LANGUAGE_NAME_TO_SCOPES) as Hall.
  { apply (bool_decide_unpack _). vm_compute. exact I. }
  intros H1 H2 Hs1 Hs2.
  rewrite Forall_forall in Hall. specialize (Hall _ H1).
  rewrite Forall_forall in Hall. specialize (Hall _ H2).
  destruct Hall as [?|Hall]; [done|].
  rewrite Forall_forall in Hall. by destruct (Hall s Hs1).
Qed.

Lemma assigns_functional files n1 n2 s :
  assigns files n1 s → assigns files n2 s → n1 = n2.
Proof.
  intros (sc1 & H1 & _ & Hs1) (sc2 & H2 & _ & Hs2).
  eapply LANGUAGE_NAME_TO_SCOPES_disjoint; eauto using assoc_elem.
Qed.

#[global] Instance assigns_dec files name scope :
  Decision (assigns files name scope).
Proof.
  unfold assigns.
  destruct (assoc name LANGUAGE_NAME_TO_SCOPES) as [scopes|].
  - destruct (decide (get_so_file name ∈ files ∧ scope ∈ scopes))
      as [[? ?]|Hn].
    + left. eauto.
    + right. intros (sc & [= <-] & ? & ?). tauto.
  - right. by intros (sc & ? & _).
Defined.

Lemma lookup_foldl_insert (language : Language) (scopes : list ScopeType)
    (reg : gmap ScopeType Language) (s : ScopeType) :
  foldl (fun r scope => <[scope := language]> r) reg scopes !! s =
  if decide (s ∈ scopes) then Some language else reg !! s.
Proof.
  revert reg. induction scopes as [|sc scopes IH]; intros reg.
  - destruct (decide (s ∈ [])) as [H|]; [by apply elem_of_nil in H|done].
  - cbn [foldl]. rewrite IH.
    destruct (decide (s ∈ scopes)) as [Hin|Hnin];
      destruct (decide (s ∈ sc :: scopes)) as [Hin'|Hnin'].
    + done.
    + destruct Hnin'. by apply list_elem_of_further.
    + apply elem_of_cons in Hin' as [->|?]; [|done].
      apply lookup_insert_eq.
    + apply lookup_insert_ne. intros ->. apply Hnin', list_elem_of_here.
Qed.

Lemma lookup_instantiate_language files name reg s :
  instantiate_language files name reg !! s =
  if decide (assigns files name s) then Some (mkLanguage name) else reg !! s.
Proof.
  unfold instantiate_language.
  destruct (assoc name LANGUAGE_NAME_TO_SCOPES) as [scopes|] eqn:Ha.
  - destruct (decide (get_so_file name ∈ files)) as [Hf|Hf].
    + rewrite lookup_foldl_insert.
      destruct (decide (s ∈ scopes)) as [Hs|Hs].
      * rewrite decide_True; [done|]. exists scopes. eauto.
      * rewrite decide_False; [done|].
        intros (sc & Ha' & _ & Hs'). congruence.
    + rewrite decide_False; [done|].
      intros (sc & _ & Hf' & _). done.
  - rewrite decide_False; [done|]. intros (sc & Ha' & _). congruence.
Qed.

Lemma lookup_instantiate_all files names reg s name :
  name ∈ names → assigns files name s →
  foldl (fun r n => instantiate_language files n r) reg names !! s
    = Some (mkLanguage name).
Proof.
  intros Hin Has. revert Hin.
  induction names as [|n names IH] using rev_ind; intros Hin.
  - by apply elem_of_nil in Hin.
  - rewrite foldl_snoc, lookup_instantiate_language.
    destruct (decide (assigns files n s)) as [Hn|Hn].
    + by rewrite (assigns_functional _ _ _ _ Hn Has).
    + apply IH. apply elem_of_app in Hin as [?|Hin]; [done|].
      apply list_elem_of_singleton in Hin. by subst.
Qed.

Lemma lookup_instantiate_none files names reg s :
  (∀ name, name ∈ names → ¬ assigns files name s) →
  foldl (fun r n => instantiate_language files n r) reg names !! s
    = reg !! s.
Proof.
  induction names as [|n names IH] using rev_ind; intros Hno; [done|].
  rewrite foldl_snoc, lookup_instantiate_language.
  rewrite decide_False.
  - apply IH. intros name Hin. apply Hno. apply elem_of_app. by left.
  - apply Hno. apply elem_of_app. right. apply list_elem_of_here.
Qed.

(** X3.  After [instantiate_languages], a scope of a language that is
    installed, known to [LANGUAGE_NAME_TO_SCOPES] and built is registered
    with that language; a scope that no such language lists keeps the
    registration it had, or stays unregistered.  The cache, the clock and
    the history are not touched. *)
Theorem instantiate_languages_registers
    (language_names files : list string) (w : World) (s : ScopeType) :
  let w' := instantiate_languages language_names files w in
  (∀ name, name ∈ language_names → assigns files name s →
           SCOPE_TO_LANGUAGE w' !! s = Some (mkLanguage name)) ∧
  ((∀ name, name ∈ language_names → ¬ assigns files name s) →
   SCOPE_TO_LANGUAGE w' !! s = SCOPE_TO_LANGUAGE w !! s) ∧
  BUFFER_ID_TO_TREE w' = BUFFER_ID_TO_TREE w ∧
  clock w' = clock w ∧ trace w' = trace w.
Proof.
  intros w'. split; [|split; [|done]].
  - intros name Hin Has. unfold w', instantiate_languages.
    cbn [SCOPE_TO_LANGUAGE].
    apply lookup_instantiate_all; [|done]. by rewrite elem_of_remove_dups.
  - intros Hno. unfold w', instantiate_languages. cbn [SCOPE_TO_LANGUAGE].
    apply lookup_instantiate_none.
    intros name Hin. rewrite elem_of_remove_dups in Hin. by apply Hno.
Qed.

(** X4.  The result of [instantiate_languages] depends on the installed
    languages as a set only: neither the order in which [set(...)] yields
    the names nor repetitions in the setting matter. *)
Theorem instantiate_languages_set_semantics
    (names1 names2 files : list string) (w : World) :
  (∀ name, name ∈ names1 ↔ name ∈ names2) →
  instantiate_languages names1 files w = instantiate_languages names2 files w.
Proof.
  intros Hsame. unfold instantiate_languages. f_equal.
  apply map_eq. intros s.
  destruct (decide (Exists (λ name, assigns files name s) names1))
    as [Hex|Hno].
  - apply Exists_exists in Hex as (name & Hin & Has).
    rewrite !(lookup_instantiate_all _ _ _ s name); try done.
    + rewrite elem_of_remove_dups. by apply Hsame.
    + by rewrite elem_of_remove_dups.
  - apply not_Exists_Forall in Hno; [|apply _].
    rewrite Forall_forall in Hno.
    rewrite !lookup_instantiate_none; [done| |].
    + intros name Hin. rewrite elem_of_remove_dups in Hin.
      apply Hno. by apply Hsame.
    + intros name Hin. rewrite elem_of_remove_dups in Hin. by apply Hno.
Qed.

Lemma instantiate_languages_set_semantics_witness :
  instantiate_languages ["python"; "go"; "python"]
    ["language-python.so"; "language-go.so"] empty_world =
  instantiate_languages ["go"; "python"]
    ["language-python.so"; "language-go.so"] empty_world.
Proof.
  apply (instantiate_languages_set_semantics ["python"; "go"; "python"]
           ["go"; "python"]).
  intros name. rewrite !elem_of_cons, !elem_of_nil. tauto.
Defined.

Lemma instantiate_languages_registers_witness :
  SCOPE_TO_LANGUAGE python_world !! "source.python"
    = Some (mkLanguage "python") ∧
  SCOPE_TO_LANGUAGE
    (instantiate_languages ["python"; "cobol"] [] empty_world)
    !! "source.python" = SCOPE_TO_LANGUAGE empty_world !! "source.python".
Proof.
  split.
  - apply (proj1 (instantiate_languages_registers ["python"]
                    ["language-python.so"] empty_world "source.python")
             "python").
    + apply list_elem_of_here.
    + exists ["source.python"]. split; [reflexivity|].
      split; apply list_elem_of_here.
  - apply (proj1 (proj2 (instantiate_languages_registers
                           ["python"; "cobol"] [] empty_world
                           "source.python"))).
    intros name _ (scopes & _ & Hfile & _). by apply elem_of_nil in Hfile.
Defined.

(** ** The effect of one callback *)

Lemma writes_written t :
  written t =
  foldl (fun m bd => <[bd.1 := bd.2]> m) (∅ : gmap Z TreeDict) (writes t).
Proof.
  unfold written, writes.
  generalize (∅ : gmap Z TreeDict).
  induction t as [|e t IH]; intros m; [done|].
  destruct e as [b d|win args]; simpl; apply IH.
Qed.

Lemma on_text_changed_async_empty monotonic view w scope :
  check_scope w (view_syntax view) = Some scope →
  on_text_changed_async monotonic view [] w =
  Returned
    (trim_cached_trees MAX_CACHED_TREES
       (publish_tree_update (view_window view) (view_buffer_id view) scope w)).
Proof. intros Hs. unfold on_text_changed_async. by rewrite Hs. Qed.

Lemma parse_view_effect monotonic view p w :
  callback_effect monotonic (Some view) w
    (world_of (parse_view monotonic view p w)).
Proof.
  destruct (parse_view_cases monotonic view p w)
    as [[_ ->]|(scope & language & _ & _ & ->)]; [by left|].
  right; right.
  exists view, (mkTree language (view_text view)), 1%nat.
  split; [done|]. split; [lia|]. cbn [world_of].
  replace (clock w + 1 - 1)%nat with (clock w) by lia.
  assert (∀ w1,
            (if p
             then publish_tree_update (view_window view)
                    (view_buffer_id view) scope
             else id) w1 =
            publish_tree_update
              (if p then view_window view else None)
              (view_buffer_id view) scope w1) as Hp.
  { intros w1. by destruct p. }
  rewrite Hp. split; [|split].
  - cbn [trim_cached_trees BUFFER_ID_TO_TREE].
    by rewrite (proj1 (proj2 (publish_tree_update_frame _ _ _ _))).
  - cbn [trim_cached_trees clock].
    rewrite (proj2 (proj2 (publish_tree_update_frame _ _ _ _))).
    rewrite cache_write_eq. cbn [clock]. lia.
  - rewrite (proj2 (proj2 (trim_cached_trees_frame _ _))).
    rewrite publish_tree_update_writes, cache_write_eq. cbn [trace].
    by rewrite writes_app.
Qed.

Lemma on_text_changed_async_effect monotonic view changes w :
  callback_effect monotonic (Some view) w
    (world_of (on_text_changed_async monotonic view changes w)).
Proof.
  destruct (check_scope w (view_syntax view)) as [scope|] eqn:Hs.
  - destruct (check_scope_registered _ _ _ Hs) as [language Hl].
    destruct changes as [|change rest].
    + right; left. rewrite (on_text_changed_async_empty _ _ _ _ Hs).
      cbn [world_of]. split; [|split].
      * cbn [trim_cached_trees BUFFER_ID_TO_TREE].
        by rewrite (proj1 (proj2 (publish_tree_update_frame _ _ _ _))).
      * cbn [trim_cached_trees clock].
        by rewrite (proj2 (proj2 (publish_tree_update_frame _ _ _ _))).
      * rewrite (proj2 (proj2 (trim_cached_trees_frame _ _))).
        apply publish_tree_update_writes.
    + right; right.
      exists view, (tree_to_store w view language),
        (length (change :: rest)).
      split; [done|]. split; [simpl; lia|].
      rewrite (on_text_changed_async_supported _ _ _ _ _ language Hs Hl)
        by done.
      cbn [world_of]. split; [|split].
      * cbn [trim_cached_trees BUFFER_ID_TO_TREE].
        by rewrite (proj1 (proj2 (publish_tree_update_frame _ _ _ _))).
      * cbn [trim_cached_trees clock].
        by rewrite (proj2 (proj2 (publish_tree_update_frame _ _ _ _))).
      * rewrite (proj2 (proj2 (trim_cached_trees_frame _ _))).
        rewrite publish_tree_update_writes. cbn [trace].
        by rewrite writes_app, writes_Wrote.
  - left. unfold on_text_changed_async. by rewrite Hs.
Qed.

Lemma handle_effect monotonic e w :
  callback_effect monotonic (event_view e) w
    (world_of (handle monotonic e w)).
Proof.
  destruct e as [v|v|v|v|v changes|names env ov];
    cbn [handle event_view registry_seen].
  - unfold on_activated_async, handle_load.
    destruct (BUFFER_ID_TO_TREE w !! view_buffer_id v); [by left|].
    apply parse_view_effect.
  - unfold on_load_async, handle_load.
    destruct (BUFFER_ID_TO_TREE w !! view_buffer_id v); [by left|].
    apply parse_view_effect.
  - apply parse_view_effect.
  - apply parse_view_effect.
  - apply on_text_changed_async_effect.
  - rewrite load_languages_provision.
    destruct (provision names env) as [files|]; [cbn zeta|by left].
    destruct ov as [v|]; [|by left].
    change (BUFFER_ID_TO_TREE (instantiate_languages names files w))
      with (BUFFER_ID_TO_TREE w).
    destruct (BUFFER_ID_TO_TREE w !! view_buffer_id v); [by left|].
    apply (parse_view_effect monotonic v false
             (instantiate_languages names files w)).
Qed.

Lemma foldl_insert_stamps monotonic (m : gmap Z TreeDict) b t c k :
  foldl (fun m bd => <[bd.1 := bd.2]> m) m
    ((fun d => (b, d)) <$> stamps monotonic t c (S k)) =
  <[b := mkTreeDict t (monotonic (c + k)%nat)]> m.
Proof.
  revert m c. induction k as [|k IH]; intros m c.
  - simpl. do 3 f_equal. lia.
  - rewrite stamps_cons, fmap_cons. cbn [foldl]. rewrite IH.
    cbn [fst snd]. rewrite insert_insert_eq. do 3 f_equal. lia.
Qed.

(** The cache and the last writes of the history after a callback that
    writes. *)
Lemma written_after_writes monotonic t t' b tr c k :
  (1 ≤ k)%nat →
  writes t' = writes t ++ ((fun d => (b, d)) <$> stamps monotonic tr c k) →
  written t' = <[b := mkTreeDict tr (monotonic (c + k - 1)%nat)]> (written t).
Proof.
  intros Hk Hw. rewrite !writes_written, Hw, foldl_app.
  destruct k as [|k]; [lia|]. rewrite foldl_insert_stamps.
  do 3 f_equal. lia.
Qed.

(** ** Other buffers *)

(** X5.  A callback for one buffer never creates or changes the entry of
    another buffer: an entry found for another buffer afterwards was there
    before, unchanged.  And when the cache held fewer than
    [MAX_CACHED_TREES] entries, no other buffer loses its entry either. *)
Theorem callbacks_leave_other_buffers
    (monotonic : nat → Z) (e : event) (w : World) (b' : Z) :
  (∀ v, event_view e = Some v → view_buffer_id v ≠ b') →
  let w' := world_of (handle monotonic e w) in
  (∀ d', BUFFER_ID_TO_TREE w' !! b' = Some d' →
         BUFFER_ID_TO_TREE w !! b' = Some d') ∧
  ((size (BUFFER_ID_TO_TREE w) < MAX_CACHED_TREES)%nat →
   BUFFER_ID_TO_TREE w' !! b' = BUFFER_ID_TO_TREE w !! b').
Proof.
  intros Hother w'.
  destruct (handle_effect monotonic e w)
    as [(Hc & _)|[(Hc & _)|(v & t & k & Hv & _ & Hc & _)]];
    fold w' in Hc; rewrite Hc.
  - done.
  - split.
    + intros d' Hd. by apply (lookup_weaken _ _ _ _ Hd),
        trim_loop_subseteq.
    + intros Hsz. rewrite trim_loop_id by lia. done.
  - specialize (Hother v Hv). split.
    + intros d' Hd.
      pose proof (lookup_weaken _ _ _ _ Hd (trim_loop_subseteq _ _)) as Hd'.
      by rewrite lookup_insert_ne in Hd'.
    + intros Hsz. rewrite trim_loop_id.
      * by apply lookup_insert_ne.
      * match goal with
        | |- context [size (<[?i := ?x]> ?m)] =>
            pose proof (map_size_insert i x m) as Hi
        end.
        destruct (BUFFER_ID_TO_TREE w !! view_buffer_id v);
          simpl in Hi; lia.
Qed.

Lemma callbacks_leave_other_buffers_witness :
  let e := Reloaded (python_view 5 "x = 2" (Some (mkWindow 1))) in
  let w := world_of
             (on_load_async Z.of_nat
                (python_view 6 "y = 1" (Some (mkWindow 1))) python_world) in
  let w' := world_of (handle Z.of_nat e w) in
  (∀ d', BUFFER_ID_TO_TREE w' !! 6 = Some d' →
         BUFFER_ID_TO_TREE w !! 6 = Some d') ∧
  ((size (BUFFER_ID_TO_TREE w) < MAX_CACHED_TREES)%nat →
   BUFFER_ID_TO_TREE w' !! 6 = BUFFER_ID_TO_TREE w !! 6).
Proof.
  intros e w.
  apply (callbacks_leave_other_buffers Z.of_nat e w 6).
  intros v [= <-]. discriminate.
Defined.

(** ** The cache and the history *)

Lemma handle_cache_written monotonic e w :
  BUFFER_ID_TO_TREE w ⊆ written (trace w) →
  BUFFER_ID_TO_TREE (world_of (handle monotonic e w))
    ⊆ written (trace (world_of (handle monotonic e w))).
Proof.
  intros Hinv.
  destruct (handle_effect monotonic e w)
    as [(Hc & _ & Ht)|[(Hc & _ & Ht)|(v & t & k & _ & Hk & Hc & _ & Ht)]];
    rewrite Hc.
  - rewrite writes_written, Ht, <- writes_written. done.
  - rewrite writes_written, Ht, <- writes_written.
    etrans; [apply trim_loop_subseteq | done].
  - rewrite (written_after_writes _ _ _ _ _ _ _ Hk Ht).
    etrans; [apply trim_loop_subseteq | by apply insert_mono].
Qed.

(** X6.  Along any run, every entry of the cache is the entry written last
    for its buffer: the cache never holds anything but the latest write. *)
Theorem cache_holds_latest_writes
    (monotonic : nat → Z) (events : list event) (w : World) :
  BUFFER_ID_TO_TREE w ⊆ written (trace w) →
  BUFFER_ID_TO_TREE (run monotonic events w)
    ⊆ written (trace (run monotonic events w)).
Proof.
  revert w. induction events as [|e rest IH]; intros w Hinv; [done|].
  simpl. apply IH. by apply handle_cache_written.
Qed.

Lemma cache_holds_latest_writes_witness :
  let events :=
    [Loaded (python_view 5 "x" (Some (mkWindow 1)));
     TextChanged (python_view 5 "xy" None)
       [mkTextChange 1 1 "y"; mkTextChange 2 2 "z"];
     Reverted (python_view 5 "x" None)] in
  BUFFER_ID_TO_TREE (run Z.of_nat events python_world)
    ⊆ written (trace (run Z.of_nat events python_world)).
Proof.
  intros events.
  apply (cache_holds_latest_writes Z.of_nat events python_world).
  apply map_empty_subseteq.
Defined.

(** X7.  The clock is read once for every cache write and never
    otherwise: along any run the number of readings grows by the number of
    writes. *)
Theorem one_clock_reading_per_write
    (monotonic : nat → Z) (events : list event) (w : World) :
  (clock (run monotonic events w) + length (writes (trace w)))%nat =
  (clock w + length (writes (trace (run monotonic events w))))%nat.
Proof.
  revert w. induction events as [|e rest IH]; intros w; [done|].
  simpl. pose proof (IH (world_of (handle monotonic e w))) as H.
  destruct (handle_effect monotonic e w)
    as [(_ & Hk & Ht)|[(_ & Hk & Ht)|(v & t & k & _ & _ & _ & Hk & Ht)]];
    rewrite Ht, Hk in H; [lia..|].
  rewrite length_app, length_fmap, stamps_length in H. lia.
Qed.

(** ** Timestamps *)

Lemma python_world_cache : BUFFER_ID_TO_TREE python_world = ∅.
Proof. reflexivity. Qed.

Lemma handle_stamped_before monotonic e w :
  stamped_before monotonic w →
  stamped_before monotonic (world_of (handle monotonic e w)).
Proof.
  intros Hinv b d.
  destruct (handle_effect monotonic e w)
    as [(Hc & Hk & _)|[(Hc & Hk & _)|(v & t & k & _ & Hk1 & Hc & Hk & _)]];
    rewrite Hc, Hk.
  - apply Hinv.
  - intros Hd. apply (Hinv b d).
    by apply (lookup_weaken _ _ _ _ Hd), trim_loop_subseteq.
  - intros Hd.
    pose proof (lookup_weaken _ _ _ _ Hd (trim_loop_subseteq _ _)) as Hd'.
    apply lookup_insert_Some in Hd' as [[_ <-]|[_ Hd']].
    + exists (clock w + k - 1)%nat. split; [lia|done].
    + destruct (Hinv b d Hd') as (k0 & Hk0 & Heq).
      exists k0. split; [lia|done].
Qed.

(** X8.  Along any run, every cached timestamp is a reading of the clock
    taken before the present one: no entry is stamped with a time that has
    not been read yet. *)
Theorem cached_timestamps_are_past_readings
    (monotonic : nat → Z) (events : list event) (w : World) :
  stamped_before monotonic w →
  stamped_before monotonic (run monotonic events w).
Proof.
  revert w. induction events as [|e rest IH]; intros w Hinv; [done|].
  simpl. apply IH. by apply handle_stamped_before.
Qed.

Lemma cached_timestamps_are_past_readings_witness :
  stamped_before Z.of_nat
    (run Z.of_nat
       [Loaded (python_view 5 "x" (Some (mkWindow 1)));
        TextChanged (python_view 5 "xy" None) [mkTextChange 1 1 "y"]]
       python_world).
Proof.
  apply (cached_timestamps_are_past_readings Z.of_nat _ python_world).
  intros b d Hd. by rewrite python_world_cache, lookup_empty in Hd.
Defined.

Lemma outlives_strict_clock monotonic w b t k :
  (∀ i j, (i < j)%nat → monotonic i < monotonic j) →
  stamped_before monotonic w → (clock w ≤ k)%nat →
  outlives (BUFFER_ID_TO_TREE w) b (mkTreeDict t (monotonic k)).
Proof.
  intros Hstrict Hinv Hk. unfold outlives.
  destruct (decide (size (BUFFER_ID_TO_TREE w) < MAX_CACHED_TREES)%nat)
    as [?|Hfull]; [by left|].
  destruct (BUFFER_ID_TO_TREE w !! b) as [d0|] eqn:Hb; [right; left; eauto|].
  right; right.
  assert (BUFFER_ID_TO_TREE w ≠ ∅) as Hne.
  { intros He. rewrite He, map_size_empty in Hfull.
    unfold MAX_CACHED_TREES in Hfull. lia. }
  apply map_choose in Hne as (b' & d' & Hb').
  exists b', d'. split; [congruence|]. split; [done|].
  destruct (Hinv b' d' Hb') as (k0 & Hk0 & Heq).
  left. simpl. rewrite Heq. apply Hstrict. lia.
Qed.

(** X9.  When the clock is strictly increasing, the cache is within its
    capacity and its timestamps are past readings, the entry a callback
    writes is never the one evicted: after a full parse of a view with a
    supported scope, or a text change with at least one change, the cache
    holds the entry just written for the buffer. *)
Theorem written_entry_is_cached_under_strict_clock
    (monotonic : nat → Z) (view : View) (p : bool)
    (changes : list TextChange) (w : World)
    (scope : ScopeType) (language : Language) :
  (∀ i j, (i < j)%nat → monotonic i < monotonic j) →
  stamped_before monotonic w →
  (size (BUFFER_ID_TO_TREE w) ≤ MAX_CACHED_TREES)%nat →
  check_scope w (view_syntax view) = Some scope →
  SCOPE_TO_LANGUAGE w !! scope = Some language →
  changes ≠ [] →
  let b := view_buffer_id view in
  BUFFER_ID_TO_TREE (world_of (parse_view monotonic view p w)) !! b =
    Some (mkTreeDict (mkTree language (view_text view))
            (monotonic (clock w))) ∧
  BUFFER_ID_TO_TREE
    (world_of (on_text_changed_async monotonic view changes w)) !! b =
    Some (mkTreeDict (tree_to_store w view language)
            (monotonic (clock w + length changes - 1)%nat)).
Proof.
  intros Hstrict Hinv Hsz Hs Hl Hne b. split.
  - rewrite (parse_view_supported _ _ _ _ _ _ Hs Hl). cbn [world_of].
    cbn [trim_cached_trees BUFFER_ID_TO_TREE].
    assert (BUFFER_ID_TO_TREE
              ((if p
                then publish_tree_update (view_window view)
                       (view_buffer_id view) scope
                else id)
                 (cache_write monotonic (view_buffer_id view)
                    (mkTree language (view_text view)) w)) =
            <[b := mkTreeDict (mkTree language (view_text view))
                     (monotonic (clock w))]> (BUFFER_ID_TO_TREE w)) as ->.
    { destruct p; [|done].
      by rewrite (proj1 (proj2 (publish_tree_update_frame _ _ _ _))). }
    apply write_outlives; [done|]. by apply outlives_strict_clock.
  - rewrite (on_text_changed_async_supported _ _ _ _ _ _ Hs Hl Hne).
    cbn [world_of trim_cached_trees BUFFER_ID_TO_TREE].
    rewrite (proj1 (proj2 (publish_tree_update_frame _ _ _ _))).
    cbn [BUFFER_ID_TO_TREE].
    apply write_outlives; [done|]. apply outlives_strict_clock; [done..|].
    destruct changes; [done|]. simpl. lia.
Qed.

Lemma written_entry_is_cached_under_strict_clock_witness :
  let view := python_view 5 "xy" (Some (mkWindow 1)) in
  let changes := [mkTextChange 1 1 "y"] in
  BUFFER_ID_TO_TREE (world_of (parse_view Z.of_nat view true python_world))
    !! 5 = Some (mkTreeDict (mkTree python_language "xy") 0) ∧
  BUFFER_ID_TO_TREE
    (world_of (on_text_changed_async Z.of_nat view changes python_world))
    !! 5 =
    Some (mkTreeDict (tree_to_store python_world view python_language)
            (Z.of_nat (clock python_world + length changes - 1)%nat)).
Proof.
  intros view changes.
  apply (written_entry_is_cached_under_strict_clock Z.of_nat view true
           changes python_world "source.python" python_language).
  - intros i j Hij. lia.
  - intros b d Hd. by rewrite python_world_cache, lookup_empty in Hd.
  - vm_compute. lia.
  - reflexivity.
  - reflexivity.
  - discriminate.
Defined.

(** ** Text changes: the empty list and the cached buffer *)

(** X10.  A text change that carries no change, for a view with a supported
    scope and a window, writes nothing and reads no clock, yet runs the
    update command once: in a cache within its capacity only the history
    changes. *)
Theorem empty_change_list_notifies_without_write
    (monotonic : nat → Z) (view : View) (w : World)
    (scope : ScopeType) (win : Window) :
  check_scope w (view_syntax view) = Some scope →
  view_window view = Some win →
  window_truthy (Some win) = true →
  (size (BUFFER_ID_TO_TREE w) ≤ MAX_CACHED_TREES)%nat →
  on_text_changed_async monotonic view [] w =
  Returned
    (mkWorld (SCOPE_TO_LANGUAGE w) (BUFFER_ID_TO_TREE w) (clock w)
       (trace w ++
          [RanCommand win (mkUpdateTreeArgs (view_buffer_id view) scope)])).
Proof.
  intros Hs Hwin Htrue Hsz.
  rewrite (on_text_changed_async_empty _ _ _ _ Hs). f_equal.
  rewrite trim_cached_trees_id.
  - rewrite Hwin. unfold publish_tree_update. by rewrite Htrue.
  - by rewrite (proj1 (proj2 (publish_tree_update_frame _ _ _ _))).
Qed.

Lemma empty_change_list_notifies_without_write_witness :
  on_text_changed_async Z.of_nat
    (python_view 5 "x" (Some (mkWindow 1))) [] python_world =
  Returned
    (mkWorld (SCOPE_TO_LANGUAGE python_world)
       (BUFFER_ID_TO_TREE python_world) (clock python_world)
       (trace python_world ++
          [RanCommand (mkWindow 1) (mkUpdateTreeArgs 5 "source.python")])).
Proof.
  apply (empty_change_list_notifies_without_write Z.of_nat
           (python_view 5 "x" (Some (mkWindow 1))) python_world
           "source.python" (mkWindow 1));
    [reflexivity | reflexivity | reflexivity | vm_compute; lia].
Defined.

(** X11.  A text change with [n] changes, [n] at least 1, for a buffer that
    has an entry, in a cache within its capacity: the callback returns, the
    entry keeps the tree it had and gets the last of the [n] clock readings
    as its timestamp, and every other entry of the cache stays as it
    was. *)
Theorem text_change_of_cached_buffer_keeps_tree
    (monotonic : nat → Z) (view : View) (changes : list TextChange)
    (w : World) (scope : ScopeType) (d0 : TreeDict) :
  check_scope w (view_syntax view) = Some scope →
  BUFFER_ID_TO_TREE w !! view_buffer_id view = Some d0 →
  changes ≠ [] →
  (size (BUFFER_ID_TO_TREE w) ≤ MAX_CACHED_TREES)%nat →
  ∃ w', on_text_changed_async monotonic view changes w = Returned w' ∧
        BUFFER_ID_TO_TREE w' =
          <[view_buffer_id view :=
              mkTreeDict (tree d0)
                (monotonic (clock w + length changes - 1)%nat)]>
            (BUFFER_ID_TO_TREE w) ∧
        clock w' = (clock w + length changes)%nat ∧
        SCOPE_TO_LANGUAGE w' = SCOPE_TO_LANGUAGE w.
Proof.
  intros Hs Hb Hne Hsz.
  destruct (check_scope_registered _ _ _ Hs) as [language Hl].
  rewrite (on_text_changed_async_supported _ _ _ _ _ _ Hs Hl Hne).
  unfold tree_to_store. rewrite Hb.
  eexists. split; [reflexivity|].
  rewrite trim_cached_trees_id.
  - by destruct (publish_tree_update_frame (view_window view)
                   (view_buffer_id view) scope
                   (mkWorld (SCOPE_TO_LANGUAGE w)
                      (<[view_buffer_id view :=
                           mkTreeDict (tree d0)
                             (monotonic
                                (clock w + length changes - 1)%nat)]>
                         (BUFFER_ID_TO_TREE w))
                      (clock w + length changes)%nat
                      (trace w ++
                         (Wrote (view_buffer_id view) <$>
                            stamps monotonic (tree d0) (clock w)
                              (length changes)))))
      as (-> & -> & ->).
  - rewrite (proj1 (proj2 (publish_tree_update_frame _ _ _ _))).
    cbn [BUFFER_ID_TO_TREE]. rewrite map_size_insert_Some by eauto. done.
Qed.

Lemma text_change_of_cached_buffer_keeps_tree_witness :
  let w := world_of
             (on_load_async Z.of_nat
                (python_view 5 "x" (Some (mkWindow 1))) python_world) in
  let view := python_view 5 "xyz" (Some (mkWindow 1)) in
  let changes := [mkTextChange 1 1 "y"; mkTextChange 2 2 "z"] in
  ∃ w', on_text_changed_async Z.of_nat view changes w = Returned w' ∧
        BUFFER_ID_TO_TREE w' =
          <[5 := mkTreeDict (mkTree python_language "x")
                   (Z.of_nat (clock w + length changes - 1)%nat)]>
            (BUFFER_ID_TO_TREE w) ∧
        clock w' = (clock w + length changes)%nat ∧
        SCOPE_TO_LANGUAGE w' = SCOPE_TO_LANGUAGE w.
Proof.
  intros w view changes.
  apply (text_change_of_cached_buffer_keeps_tree Z.of_nat view changes w
           "source.python"
           (mkTreeDict (mkTree python_language "x") 0));
    [reflexivity | reflexivity | discriminate | vm_compute; lia].
Defined.

(** ** The registry along a run *)

Lemma parse_view_registry monotonic view p w :
  SCOPE_TO_LANGUAGE (world_of (parse_view monotonic view p w))
    = SCOPE_TO_LANGUAGE w.
Proof.
  destruct (parse_view_cases monotonic view p w)
    as [[_ ->]|(scope & language & _ & _ & ->)]; [done|].
  cbn [world_of trim_cached_trees SCOPE_TO_LANGUAGE].
  destruct p; [|done].
  by rewrite (proj1 (publish_tree_update_frame _ _ _ _)).
Qed.

Lemma on_text_changed_async_registry monotonic view changes w :
  SCOPE_TO_LANGUAGE (world_of (on_text_changed_async monotonic view changes w))
    = SCOPE_TO_LANGUAGE w.
Proof.
  destruct (check_scope w (view_syntax view)) as [scope|] eqn:Hs.
  - destruct (check_scope_registered _ _ _ Hs) as [language Hl].
    destruct changes as [|change rest].
    + rewrite (on_text_changed_async_empty _ _ _ _ Hs).
      cbn [world_of trim_cached_trees SCOPE_TO_LANGUAGE].
      by rewrite (proj1 (publish_tree_update_frame _ _ _ _)).
    + rewrite (on_text_changed_async_supported _ _ _ _ _ language Hs Hl)
        by done.
      cbn [world_of trim_cached_trees SCOPE_TO_LANGUAGE].
      by rewrite (proj1 (publish_tree_update_frame _ _ _ _)).
  - unfold on_text_changed_async. by rewrite Hs.
Qed.

Lemma handle_registry monotonic e w :
  SCOPE_TO_LANGUAGE (world_of (handle monotonic e w)) =
  SCOPE_TO_LANGUAGE (registry_seen e w).
Proof.
  destruct e as [v|v|v|v|v changes|names env ov];
    cbn [handle event_view registry_seen].
  - unfold on_activated_async, handle_load.
    destruct (BUFFER_ID_TO_TREE w !! view_buffer_id v); [done|].
    apply parse_view_registry.
  - unfold on_load_async, handle_load.
    destruct (BUFFER_ID_TO_TREE w !! view_buffer_id v); [done|].
    apply parse_view_registry.
  - apply parse_view_registry.
  - apply parse_view_registry.
  - apply on_text_changed_async_registry.
  - rewrite load_languages_provision.
    destruct (provision names env) as [files|]; [cbn zeta|done].
    destruct ov as [v|]; [|done].
    destruct (BUFFER_ID_TO_TREE _ !! view_buffer_id v); [done|].
    apply parse_view_registry.
Qed.

Lemma instantiate_languages_keeps names files w s :
  is_Some (SCOPE_TO_LANGUAGE w !! s) →
  is_Some (SCOPE_TO_LANGUAGE (instantiate_languages names files w) !! s).
Proof.
  intros Hs. unfold instantiate_languages. cbn [SCOPE_TO_LANGUAGE].
  induction (remove_dups names) as [|n l IH] using rev_ind; [done|].
  rewrite foldl_snoc, lookup_instantiate_language.
  case_decide; [eauto|done].
Qed.

Lemma handle_registry_grows monotonic e w s :
  is_Some (SCOPE_TO_LANGUAGE w !! s) →
  is_Some (SCOPE_TO_LANGUAGE (world_of (handle monotonic e w)) !! s).
Proof.
  intros Hs. rewrite handle_registry.
  destruct e; cbn [registry_seen]; try done.
  destruct (provision _ _); [|done]. by apply instantiate_languages_keeps.
Qed.

Lemma run_registry_grows monotonic events w s :
  is_Some (SCOPE_TO_LANGUAGE w !! s) →
  is_Some (SCOPE_TO_LANGUAGE (run monotonic events w) !! s).
Proof.
  revert w. induction events as [|e rest IH]; intros w Hs; [done|].
  simpl. apply IH. by apply handle_registry_grows.
Qed.

(** X12.  The callbacks of the two listeners never change the registry of
    languages; and along any run, with [load_languages] in it or not, a
    scope that [check_scope] accepts is accepted ever after: a registered
    scope is never unregistered. *)
Theorem registry_only_grows
    (monotonic : nat → Z) (events : list event) (w : World) :
  (Forall listener_event events →
   SCOPE_TO_LANGUAGE (run monotonic events w) = SCOPE_TO_LANGUAGE w) ∧
  (∀ sc s, check_scope w sc = Some s →
           check_scope (run monotonic events w) sc = Some s).
Proof.
  split.
  - revert w. induction events as [|e rest IH]; intros w Hall; [done|].
    apply Forall_cons in Hall as [He Hall]. simpl. rewrite IH by done.
    rewrite handle_registry. by destruct e.
  - intros sc s Hs. apply check_scope_Some in Hs as (-> & Hne & Hreg).
    apply check_scope_Some. split; [done|]. split; [done|].
    by apply run_registry_grows.
Qed.

Lemma registry_only_grows_witness :
  let events :=
    [Loaded (python_view 5 "x" (Some (mkWindow 1)));
     TextChanged (python_view 5 "xy" None) [mkTextChange 1 1 "y"]] in
  SCOPE_TO_LANGUAGE (run Z.of_nat events python_world)
    = SCOPE_TO_LANGUAGE python_world ∧
  check_scope
    (run Z.of_nat
       (LanguagesLoaded ["go"] python_disk None :: events)
       python_world)
    (Some "source.python") = Some "source.python".
Proof.
  intros events. split.
  - apply (proj1 (registry_only_grows Z.of_nat events python_world)).
    repeat constructor.
  - apply (proj2 (registry_only_grows Z.of_nat
                    (LanguagesLoaded ["go"] python_disk None
                       :: events) python_world)).
    reflexivity.
Defined.

(** ** [load_languages] *)

Lemma clone_loop_raises names name :
  name ∈ names → is_Some (assoc name LANGUAGE_NAME_TO_REPO) →
  clone_loop names = None.
Proof.
  intros Hin [r Hr]. induction names as [|n names IH]; cbn [clone_loop].
  - by apply elem_of_nil in Hin.
  - destruct (assoc n LANGUAGE_NAME_TO_REPO) as [r'|] eqn:Hn; [done|].
    apply IH. apply elem_of_cons in Hin as [->|?]; [congruence|done].
Qed.

Lemma provision_raises names env name :
  name ∈ names → is_Some (assoc name LANGUAGE_NAME_TO_REPO) →
  provision names env = None.
Proof.
  intros Hin Hr. unfold provision, clone_languages.
  destruct (listdir_clone env); [|done].
  rewrite (clone_loop_raises _ name); [done| |done].
  by rewrite elem_of_remove_dups.
Qed.

(** X14.  [load_languages] never runs the update command, whatever it is
    given.  When its cloning, building or listing raises it ends with the
    state unchanged, and this is what happens whenever an installed
    language is a key of [LANGUAGE_NAME_TO_REPO]: the value there is a
    dictionary and [split] is called on it.  When nothing raises, the
    registry is the one [instantiate_languages] leaves, and with no active
    view, or one whose buffer has an entry, nothing else changes. *)
Theorem load_languages_never_notifies
    (monotonic : nat → Z) (language_names : list string)
    (env : Provisioning) (active_view : option View) (w : World) :
  let o := load_languages monotonic language_names env active_view w in
  notifications (trace (world_of o)) = notifications (trace w) ∧
  (provision language_names env = None → o = Raised w) ∧
  ((∃ name, name ∈ language_names ∧
            is_Some (assoc name LANGUAGE_NAME_TO_REPO)) →
   o = Raised w) ∧
  (∀ files,
     provision language_names env = Some files →
     SCOPE_TO_LANGUAGE (world_of o) =
       SCOPE_TO_LANGUAGE (instantiate_languages language_names files w) ∧
     ((∀ v, active_view = Some v →
            is_Some (BUFFER_ID_TO_TREE w !! view_buffer_id v)) →
      o = Returned (instantiate_languages language_names files w))).
Proof.
  intros o. unfold o. rewrite load_languages_provision.
  split; [|split; [|split]].
  - destruct (provision language_names env) as [files|]; [cbn zeta|done].
    destruct active_view as [v|]; [|done].
    destruct (BUFFER_ID_TO_TREE _ !! view_buffer_id v); [done|].
    destruct (parse_view_cases monotonic v false
                (instantiate_languages language_names files w))
      as [[_ ->]|(scope & language & _ & _ & ->)]; [done|].
    cbn [world_of]. rewrite (proj2 (proj2 (trim_cached_trees_frame _ _))).
    cbn [id]. rewrite cache_write_eq. cbn [trace].
    rewrite notifications_app. simpl. apply app_nil_r.
  - by intros ->.
  - intros (name & Hin & Hr).
    by rewrite (provision_raises _ _ name Hin Hr).
  - intros files ->. cbn zeta. split.
    + destruct active_view as [v|]; [|done].
      destruct (BUFFER_ID_TO_TREE _ !! view_buffer_id v); [done|].
      apply parse_view_registry.
    + intros Hcached. destruct active_view as [v|]; [|done].
      destruct (Hcached v eq_refl) as [d Hd].
      change (BUFFER_ID_TO_TREE
                (instantiate_languages language_names files w))
        with (BUFFER_ID_TO_TREE w).
      by rewrite Hd.
Qed.

Lemma load_languages_never_notifies_witness :
  let view := python_view 5 "x" (Some (mkWindow 1)) in
  let w := world_of (on_load_async Z.of_nat view python_world) in
  load_languages Z.of_nat ["go"] python_disk (Some view) w = Raised w ∧
  load_languages Z.of_nat ["cobol"] python_disk (Some view) w =
    Returned
      (instantiate_languages ["cobol"] ["language-python.so"] w).
Proof.
  intros view w. split.
  - apply (proj1 (proj2 (proj2 (load_languages_never_notifies Z.of_nat
                                  ["go"] python_disk (Some view) w)))).
    exists "go". split; [apply list_elem_of_here|]. vm_compute. eauto.
  - apply (proj2 (proj2 (proj2 (load_languages_never_notifies Z.of_nat
                                  ["cobol"] python_disk (Some view) w)))
             ["language-python.so"]); [reflexivity|].
    intros v [= <-]. vm_compute. eauto.
Defined.

(** ** [trim_cached_trees] as a whole *)

(** X15.  Whatever the size of the cache, [trim_cached_trees] only removes
    entries; it leaves [MAX_CACHED_TREES] of them, or all of them when
    there are fewer; each entry it removes is older than each entry it
    keeps (smaller timestamp, or equal timestamp and smaller buffer id);
    and trimming twice is trimming once. *)
Theorem trim_cached_trees_keeps_newest (n : nat) (w : World) :
  let c := BUFFER_ID_TO_TREE w in
  let c' := BUFFER_ID_TO_TREE (trim_cached_trees n w) in
  c' ⊆ c ∧
  size c' = (size c `min` MAX_CACHED_TREES)%nat ∧
  (∀ b d b' d', c !! b = Some d → c' !! b = None → c' !! b' = Some d' →
                updated_s d < updated_s d' ∨
                (updated_s d = updated_s d' ∧ b < b')) ∧
  trim_cached_trees n (trim_cached_trees n w) = trim_cached_trees n w.
Proof.
  intros c c'. split; [apply trim_cached_trees_subseteq|].
  split; [apply trim_cached_trees_size|]. split.
  - intros b d b' d' Hb Hgone Hb'.
    apply (trim_loop_evicted_older _ _ b d b' d' Hb Hgone Hb').
  - apply trim_cached_trees_id. rewrite trim_cached_trees_size. lia.
Qed.

Lemma trim_loop_enough_fuel f1 f2 (c : gmap Z TreeDict) :
  (size c ≤ f1 + MAX_CACHED_TREES)%nat →
  (size c ≤ f2 + MAX_CACHED_TREES)%nat →
  trim_loop f1 c = trim_loop f2 c.
Proof.
  revert f2 c. induction f1 as [|f1 IH]; intros f2 c H1 H2.
  - rewrite !trim_loop_id; [done|lia|lia].
  - destruct f2 as [|f2].
    + rewrite !trim_loop_id; [done|lia|lia].
    + simpl. case_decide as Hc; [|done].
      pose proof (evict_oldest_size c (over_capacity_nonempty c Hc)) as Hs.
      apply IH; lia.
Qed.

(** X16.  The loop of [trim_cached_trees] ends: it runs once per entry
    above [MAX_CACHED_TREES], so any number of iterations that covers the
    excess gives the result of the function, which then holds at most
    [MAX_CACHED_TREES] entries. *)
Theorem trim_loop_terminates (fuel n : nat) (w : World) :
  (size (BUFFER_ID_TO_TREE w) ≤ fuel + MAX_CACHED_TREES)%nat →
  trim_loop fuel (BUFFER_ID_TO_TREE w)
    = BUFFER_ID_TO_TREE (trim_cached_trees n w) ∧
  (size (trim_loop fuel (BUFFER_ID_TO_TREE w)) ≤ MAX_CACHED_TREES)%nat.
Proof.
  intros Hf. split.
  - apply trim_loop_enough_fuel; [done|lia].
  - rewrite trim_loop_size by done. lia.
Qed.

Lemma trim_loop_terminates_witness :
  let w := mkWorld ∅ (cache_of (same_age 35 7)) 0 [] in
  trim_loop 3 (BUFFER_ID_TO_TREE w)
    = BUFFER_ID_TO_TREE (trim_cached_trees MAX_CACHED_TREES w) ∧
  (size (trim_loop 3 (BUFFER_ID_TO_TREE w)) ≤ MAX_CACHED_TREES)%nat.
Proof.
  intros w. apply (trim_loop_terminates 3 MAX_CACHED_TREES w).
  vm_compute. lia.
Defined.

(** ** [check_scope] as the guard of [parse] and [edit] *)

(** X17.  A scope that [check_scope] returns is the scope it was given, is
    not empty and is registered, and [check_scope] returns it again when
    asked again; with it, [parse] and [edit] do not raise: [parse] gives
    the tree of the registered language and [edit] the tree it was given.
    For any scope, [parse] raises exactly when the scope is not
    registered. *)
Theorem check_scope_guards_parse_and_edit
    (w : World) (sc : option ScopeType) (s : ScopeType) :
  check_scope w sc = Some s →
  sc = Some s ∧ s ≠ "" ∧
  check_scope w (check_scope w sc) = check_scope w sc ∧
  (∃ language,
     SCOPE_TO_LANGUAGE w !! s = Some language ∧
     (∀ text, parse w s text = Some (mkTree language text)) ∧
     (∀ change t, edit w s change t = Some t)) ∧
  (∀ s' text, parse w s' text = None ↔ SCOPE_TO_LANGUAGE w !! s' = None).
Proof.
  intros Hs. pose proof Hs as Hs'.
  apply check_scope_Some in Hs' as (-> & Hne & [language Hl]).
  split; [done|]. split; [done|]. split; [by rewrite Hs|]. split.
  - exists language. split; [done|]. split.
    + intros text. by apply parse_registered.
    + intros change t. by apply (edit_registered _ _ language).
  - intros s' text. unfold parse.
    destruct (SCOPE_TO_LANGUAGE w !! s'); split; congruence.
Qed.

Lemma check_scope_guards_parse_and_edit_witness :
  Some "source.python" = Some "source.python" ∧ "source.python" ≠ "" ∧
  check_scope python_world (check_scope python_world (Some "source.python"))
    = check_scope python_world (Some "source.python") ∧
  (∃ language,
     SCOPE_TO_LANGUAGE python_world !! "source.python" = Some language ∧
     (∀ text, parse python_world "source.python" text
              = Some (mkTree language text)) ∧
     (∀ change t, edit python_world "source.python" change t = Some t)) ∧
  (∀ s' text, parse python_world s' text = None ↔
              SCOPE_TO_LANGUAGE python_world !! s' = None).
Proof.
  apply (check_scope_guards_parse_and_edit python_world
           (Some "source.python") "source.python").
  reflexivity.
Defined.

(** ** What is notified *)

Lemma publish_tree_update_trace window b scope w :
  ∃ new, trace (publish_tree_update window b scope w) = trace w ++ new ∧
         ∀ win args, RanCommand win args ∈ new →
                     window = Some win ∧ window_truthy (Some win) = true ∧
                     args = mkUpdateTreeArgs b scope.
Proof.
  unfold publish_tree_update. destruct window as [win|].
  - destruct (window_truthy (Some win)) eqn:Ht.
    + eexists. split; [reflexivity|]. intros win' args Hin.
      apply list_elem_of_singleton in Hin. by injection Hin as <- <-.
    + exists []. split; [by rewrite app_nil_r|].
      intros ? ? Hin. by apply elem_of_nil in Hin.
  - exists []. split; [by rewrite app_nil_r|].
    intros ? ? Hin. by apply elem_of_nil in Hin.
Qed.

Lemma handle_trace monotonic e w :
  ∃ new, trace (world_of (handle monotonic e w)) = trace w ++ new ∧
         ∀ win args, RanCommand win args ∈ new →
           window_truthy (Some win) = true ∧
           ∃ v, event_view e = Some v ∧ view_window v = Some win ∧
                arg_buffer_id args = view_buffer_id v ∧
                check_scope w (view_syntax v) = Some (arg_scope args).
Proof.
  assert (∀ w0, ∃ new, trace w0 = trace w0 ++ new ∧
                       ∀ win args, RanCommand win args ∈ new → False)
    as Hnone.
  { intros w0. exists []. split; [by rewrite app_nil_r|].
    intros ? ? Hin. by apply elem_of_nil in Hin. }
  assert (∀ v p w0,
            ∃ new, trace (world_of (parse_view monotonic v p w0))
                     = trace w0 ++ new ∧
                   ∀ win args, RanCommand win args ∈ new →
                     p = true ∧ window_truthy (Some win) = true ∧
                     view_window v = Some win ∧
                     arg_buffer_id args = view_buffer_id v ∧
                     check_scope w0 (view_syntax v) = Some (arg_scope args))
    as Hpv.
  { intros v p w0.
    destruct (parse_view_cases monotonic v p w0)
      as [[_ ->]|(scope & language & Hs & _ & ->)].
    - destruct (Hnone w0) as (new & Hn & Hno). exists new.
      split; [done|]. intros win args Hin. destruct (Hno win args Hin).
    - cbn [world_of]. rewrite (proj2 (proj2 (trim_cached_trees_frame _ _))).
      destruct p.
      + destruct (publish_tree_update_trace (view_window v)
                    (view_buffer_id v) scope
                    (cache_write monotonic (view_buffer_id v)
                       (mkTree language (view_text v)) w0))
          as (new & -> & Hnew).
        rewrite cache_write_eq. cbn [trace]. rewrite <- app_assoc.
        eexists. split; [reflexivity|]. intros win args Hin.
        apply elem_of_cons in Hin as [?|Hin]; [done|].
        destruct (Hnew win args Hin) as (Hw & Ht & ->). by rewrite Hs.
      + cbn [id]. rewrite cache_write_eq. cbn [trace].
        eexists. split; [reflexivity|]. intros win args Hin.
        apply list_elem_of_singleton in Hin. done. }
  assert (∀ v p w0,
            BUFFER_ID_TO_TREE w0 = BUFFER_ID_TO_TREE w → trace w0 = trace w →
            SCOPE_TO_LANGUAGE w0 = SCOPE_TO_LANGUAGE w →
            ∃ new, trace (world_of (parse_view monotonic v p w0))
                     = trace w ++ new ∧
                   ∀ win args, RanCommand win args ∈ new →
                     window_truthy (Some win) = true ∧
                     ∃ v', Some v = Some v' ∧ view_window v' = Some win ∧
                           arg_buffer_id args = view_buffer_id v' ∧
                           check_scope w (view_syntax v')
                             = Some (arg_scope args)) as Hpv'.
  { intros v p w0 _ Ht Hr. destruct (Hpv v p w0) as (new & Hn & Hnew).
    exists new. rewrite <- Ht. split; [done|]. intros win args Hin.
    destruct (Hnew win args Hin) as (_ & ? & ? & ? & Hs).
    split; [done|]. exists v. rewrite <- (check_scope_ext w w0) by done.
    done. }
  destruct e as [v|v|v|v|v changes|names env ov];
    cbn [handle event_view registry_seen].
  - unfold on_activated_async, handle_load.
    destruct (BUFFER_ID_TO_TREE w !! view_buffer_id v).
    + destruct (Hnone w) as (new & Hn & Hno). exists new.
      split; [done|]. intros win args Hin. destruct (Hno win args Hin).
    + by apply Hpv'.
  - unfold on_load_async, handle_load.
    destruct (BUFFER_ID_TO_TREE w !! view_buffer_id v).
    + destruct (Hnone w) as (new & Hn & Hno). exists new.
      split; [done|]. intros win args Hin. destruct (Hno win args Hin).
    + by apply Hpv'.
  - by apply Hpv'.
  - by apply Hpv'.
  - destruct (check_scope w (view_syntax v)) as [scope|] eqn:Hs.
    + destruct (check_scope_registered _ _ _ Hs) as [language Hl].
      assert (∀ w1 extra, trace w1 = trace w ++ extra →
                (∀ win args, RanCommand win args ∈ extra → False) →
                ∃ new,
                  trace (trim_cached_trees MAX_CACHED_TREES
                           (publish_tree_update (view_window v)
                              (view_buffer_id v) scope w1))
                    = trace w ++ new ∧
                  ∀ win args, RanCommand win args ∈ new →
                    window_truthy (Some win) = true ∧
                    ∃ v', Some v = Some v' ∧ view_window v' = Some win ∧
                          arg_buffer_id args = view_buffer_id v' ∧
                          check_scope w (view_syntax v')
                            = Some (arg_scope args)) as Hpub.
      { intros w1 extra Ht Hextra.
        rewrite (proj2 (proj2 (trim_cached_trees_frame _ _))).
        destruct (publish_tree_update_trace (view_window v)
                    (view_buffer_id v) scope w1) as (new & -> & Hnew).
        rewrite Ht, <- app_assoc. eexists. split; [reflexivity|].
        intros win args Hin. apply elem_of_app in Hin as [Hin|Hin].
        - destruct (Hextra win args Hin).
        - destruct (Hnew win args Hin) as (Hw & Htr & ->).
          split; [done|]. exists v. by rewrite Hs. }
      destruct changes as [|change rest].
      * rewrite (on_text_changed_async_empty _ _ _ _ Hs). cbn [world_of].
        apply (Hpub w []); [by rewrite app_nil_r|].
        intros ? ? Hin. by apply elem_of_nil in Hin.
      * rewrite (on_text_changed_async_supported _ _ _ _ _ language Hs Hl)
          by done.
        cbn [world_of]. eapply Hpub; [reflexivity|].
        intros win args Hin. apply list_elem_of_fmap in Hin as (? & ? & _).
        done.
    + unfold on_text_changed_async. rewrite Hs.
      destruct (Hnone w) as (new & Hn & Hno). exists new.
      split; [done|]. intros win args Hin. destruct (Hno win args Hin).
  - assert (∃ new, trace w = trace w ++ new ∧
                   ∀ win args, RanCommand win args ∈ new →
                     window_truthy (Some win) = true ∧
                     ∃ v, ov = Some v ∧ view_window v = Some win ∧
                          arg_buffer_id args = view_buffer_id v ∧
                          check_scope w (view_syntax v)
                            = Some (arg_scope args)) as Hsame.
    { destruct (Hnone w) as (new & Hn & Hno). exists new.
      split; [done|]. intros win args Hin. destruct (Hno win args Hin). }
    rewrite load_languages_provision.
    destruct (provision names env) as [files|]; [cbn zeta|done].
    destruct ov as [v|]; [|done].
    destruct (BUFFER_ID_TO_TREE _ !! view_buffer_id v); [done|].
    destruct (Hpv v false (instantiate_languages names files w))
      as (new & Hn & Hnew).
    exists new. split; [done|]. intros win args Hin.
    by destruct (Hnew win args Hin) as (? & _).
Qed.

(** X18.  Along any run the history only grows, and every update command
    run in it went to a window that is true and names a scope that is not
    empty and is registered at the end of the run: no notification is ever
    sent for an unsupported scope. *)
Theorem notifications_name_registered_scopes
    (monotonic : nat → Z) (events : list event) (w : World) :
  ∃ new, trace (run monotonic events w) = trace w ++ new ∧
         ∀ win args, RanCommand win args ∈ new →
           window_truthy (Some win) = true ∧ arg_scope args ≠ "" ∧
           is_Some (SCOPE_TO_LANGUAGE (run monotonic events w)
                      !! arg_scope args).
Proof.
  revert w. induction events as [|e rest IH]; intros w.
  - exists []. split; [by rewrite app_nil_r|].
    intros ? ? Hin. by apply elem_of_nil in Hin.
  - simpl. destruct (handle_trace monotonic e w) as (new1 & Hn1 & Hnew1).
    destruct (IH (world_of (handle monotonic e w))) as (new2 & Hn2 & Hnew2).
    exists (new1 ++ new2). split; [by rewrite Hn2, Hn1, app_assoc|].
    intros win args Hin. apply elem_of_app in Hin as [Hin|Hin].
    + destruct (Hnew1 win args Hin) as (Ht & v & _ & _ & _ & Hs).
      apply check_scope_Some in Hs as (_ & Hne & Hreg).
      split; [done|]. split; [done|].
      apply run_registry_grows. by apply handle_registry_grows.
    + by apply Hnew2.
Qed.

(** ** The scope tables of [src/utils.py] *)

Lemma assoc_app {A : Type} (k : string) (l1 l2 : list (string * A)) :
  assoc k (l1 ++ l2) =
  match assoc k l1 with Some v => Some v | None => assoc k l2 end.
Proof.
  induction l1 as [|[k' v'] l1 IH]; simpl; [done|]. by case_decide.
Qed.

Lemma assoc_None {A : Type} (k : string) (l : list (string * A)) :
  k ∉ l.*1 → assoc k l = None.
Proof.
  induction l as [|[k' v'] l IH]; simpl; [done|].
  intros Hk. apply not_elem_of_cons in Hk as [Hne Hk].
  case_decide; [done|]. by apply IH.
Qed.

Lemma elem_assoc {A : Type} (k : string) (v : A) (l : list (string * A)) :
  NoDup l.*1 → (k, v) ∈ l → assoc k l = Some v.
Proof.
  induction l as [|[k' v'] l IH]; simpl; intros Hnd Hin.
  - by apply elem_of_nil in Hin.
  - apply NoDup_cons in Hnd as [Hk' Hnd].
    apply elem_of_cons in Hin as [[= <- <-]|Hin].
    + by rewrite decide_True.
    + case_decide as Hk; [|by apply IH]. subst k'. destruct Hk'.
      apply list_elem_of_fmap. by exists (k, v).
Qed.

Lemma assoc_dict_set {V : Type} (k k' : string) (v : V) d :
  assoc k' (dict_set k v d) = if decide (k' = k) then Some v else assoc k' d.
Proof.
  induction d as [|[k0 v0] d IH]; simpl.
  - by repeat case_decide.
  - destruct (decide (k = k0)) as [->|Hne]; simpl.
    + by repeat case_decide.
    + rewrite IH. repeat case_decide; congruence.
Qed.

Lemma dict_set_keys {V : Type} (k : string) (v : V) d :
  (dict_set k v d).*1 = if decide (k ∈ d.*1) then d.*1 else d.*1 ++ [k].
Proof.
  induction d as [|[k0 v0] d IH].
  - destruct (decide (k ∈ ([] : list (string * V)).*1)) as [H|];
      [by apply elem_of_nil in H|done].
  - cbn [dict_set]. rewrite fmap_cons. cbn [fst].
    destruct (decide (k = k0)) as [->|Hne].
    + rewrite fmap_cons. cbn [fst].
      rewrite decide_True; [done|]. apply list_elem_of_here.
    + rewrite fmap_cons, IH. cbn [fst].
      destruct (decide (k ∈ d.*1)) as [Hin|Hnin].
      * rewrite decide_True; [done|]. by apply list_elem_of_further.
      * rewrite decide_False; [done|].
        intros [?|?]%elem_of_cons; done.
Qed.

Lemma dict_set_NoDup {V : Type} (k : string) (v : V) d :
  NoDup d.*1 → NoDup (dict_set k v d).*1.
Proof.
  intros Hnd. rewrite dict_set_keys. case_decide as Hk; [done|].
  apply NoDup_app. split; [done|]. split.
  - intros x Hx Hx'. apply list_elem_of_singleton in Hx'. by subst.
  - apply NoDup_singleton.
Qed.

Lemma dict_merge_NoDup {V : Type} (a b : list (string * V)) :
  NoDup a.*1 → NoDup (dict_merge a b).*1.
Proof.
  intros Ha. unfold dict_merge.
  induction b as [|kv b IH] using rev_ind; [done|].
  rewrite foldl_snoc. by apply dict_set_NoDup.
Qed.

Lemma assoc_dict_merge {V : Type} (k : string) (a b : list (string * V)) :
  NoDup b.*1 →
  assoc k (dict_merge a b) =
  match assoc k b with Some v => Some v | None => assoc k a end.
Proof.
  unfold dict_merge.
  induction b as [|[k0 v0] b IH] using rev_ind; intros Hnd; [done|].
  rewrite fmap_app in Hnd. apply NoDup_app in Hnd as (Hnd & Hk0 & _).
  rewrite foldl_snoc, assoc_dict_set, assoc_app. cbn [fst snd assoc].
  destruct (decide (k = k0)) as [->|Hne].
  - rewrite assoc_None; [done|]. intros Hin. apply (Hk0 k0 Hin).
    apply list_elem_of_here.
  - rewrite IH by done. by destruct (assoc k b).
Qed.

Lemma LANGUAGE_NAME_TO_SCOPES_NoDup : NoDup LANGUAGE_NAME_TO_SCOPES.*1.
Proof. apply (bool_decide_unpack _). vm_compute. exact I. Qed.

(** X19.  In [get_language_name_to_scopes] an entry of the user's setting
    replaces the built-in entry of the same language, every other language
    keeps its built-in scopes, and no language appears twice; without the
    setting the result is [LANGUAGE_NAME_TO_SCOPES] itself. *)
Theorem settings_override_builtin_scopes
    (settings : list (string * list ScopeType)) (name : string) :
  NoDup settings.*1 →
  assoc name (get_language_name_to_scopes (Some settings)) =
    match assoc name settings with
    | Some scopes => Some scopes
    | None => assoc name LANGUAGE_NAME_TO_SCOPES
    end ∧
  NoDup (get_language_name_to_scopes (Some settings)).*1 ∧
  get_language_name_to_scopes None = LANGUAGE_NAME_TO_SCOPES ∧
  get_language_name_to_scopes (Some []) = LANGUAGE_NAME_TO_SCOPES.
Proof.
  intros Hnd. split; [by apply assoc_dict_merge|].
  split; [|done]. apply dict_merge_NoDup, LANGUAGE_NAME_TO_SCOPES_NoDup.
Qed.

Lemma settings_override_builtin_scopes_witness :
  let settings := [("python", ["source.python"; "source.cython"]);
                   ("cobol", ["source.cobol"])] in
  assoc "python" (get_language_name_to_scopes (Some settings)) =
    match assoc "python" settings with
    | Some scopes => Some scopes
    | None => assoc "python" LANGUAGE_NAME_TO_SCOPES
    end ∧
  NoDup (get_language_name_to_scopes (Some settings)).*1 ∧
  get_language_name_to_scopes None = LANGUAGE_NAME_TO_SCOPES ∧
  get_language_name_to_scopes (Some []) = LANGUAGE_NAME_TO_SCOPES.
Proof.
  intros settings.
  apply (settings_override_builtin_scopes settings "python").
  apply (bool_decide_unpack _). vm_compute. exact I.
Defined.

Lemma lookup_foldl_insert_value {V : Type} (v : V) (scopes : list ScopeType)
    (m : gmap ScopeType V) (s : ScopeType) :
  foldl (fun m scope => <[scope := v]> m) m scopes !! s =
  if decide (s ∈ scopes) then Some v else m !! s.
Proof.
  revert m. induction scopes as [|sc scopes IH]; intros m.
  - destruct (decide (s ∈ [])) as [H|]; [by apply elem_of_nil in H|done].
  - cbn [foldl]. rewrite IH.
    destruct (decide (s ∈ scopes)) as [Hin|Hnin];
      destruct (decide (s ∈ sc :: scopes)) as [Hin'|Hnin'].
    + done.
    + destruct Hnin'. by apply list_elem_of_further.
    + apply elem_of_cons in Hin' as [->|?]; [|done].
      apply lookup_insert_eq.
    + apply lookup_insert_ne. intros ->. apply Hnin', list_elem_of_here.
Qed.

Lemma scope_names_sound (l : list (string * list ScopeType)) s n :
  foldl (fun m item => foldl (fun m scope => <[scope := item.1]> m) m item.2)
    (∅ : gmap ScopeType string) l !! s = Some n →
  ∃ scopes, (n, scopes) ∈ l ∧ s ∈ scopes.
Proof.
  induction l as [|[n0 sc0] l IH] using rev_ind; [done|].
  rewrite foldl_snoc, lookup_foldl_insert_value. cbn [fst snd].
  case_decide as Hs.
  - intros [= <-]. exists sc0. split; [|done].
    apply elem_of_app. right. apply list_elem_of_here.
  - intros H. destruct (IH H) as (scopes & Hin & Hs').
    exists scopes. split; [|done]. apply elem_of_app. by left.
Qed.

Lemma scope_names_complete (l : list (string * list ScopeType)) s n scopes :
  (n, scopes) ∈ l → s ∈ scopes →
  is_Some
    (foldl
       (fun m item => foldl (fun m scope => <[scope := item.1]> m) m item.2)
       (∅ : gmap ScopeType string) l !! s).
Proof.
  intros Hin Hs. revert Hin.
  induction l as [|[n0 sc0] l IH] using rev_ind; intros Hin.
  - by apply elem_of_nil in Hin.
  - rewrite foldl_snoc, lookup_foldl_insert_value. cbn [fst snd].
    case_decide as Hs0; [eauto|].
    apply IH. apply elem_of_app in Hin as [?|Hin]; [done|].
    apply list_elem_of_singleton in Hin. congruence.
Qed.

Lemma scope_names_unique (l : list (string * list ScopeType)) s n scopes :
  NoDup l.*1 → assoc n l = Some scopes → s ∈ scopes →
  (∀ n' scopes', assoc n' l = Some scopes' → s ∈ scopes' → n' = n) →
  foldl (fun m item => foldl (fun m scope => <[scope := item.1]> m) m item.2)
    (∅ : gmap ScopeType string) l !! s = Some n.
Proof.
  intros Hnd Ha Hs Huniq.
  destruct (scope_names_complete l s n scopes (assoc_elem _ _ _ Ha) Hs)
    as [n' Hn'].
  rewrite Hn'. f_equal.
  destruct (scope_names_sound l s n' Hn') as (scopes' & Hin' & Hs').
  apply (Huniq n' scopes'); [|done]. by apply elem_assoc.
Qed.

(** X20.  [get_scope_to_language_name] inverts the table of
    [get_language_name_to_scopes]: a scope it maps to a language is listed
    under that language; every scope listed under some language is mapped;
    and a scope listed under one language only is mapped to that
    language. *)
Theorem scope_to_language_name_inverts_table
    (settings : option (list (string * list ScopeType))) (s : ScopeType) :
  NoDup (default [] settings).*1 →
  let table := get_language_name_to_scopes settings in
  let m := get_scope_to_language_name settings in
  (∀ n, m !! s = Some n →
        ∃ scopes, assoc n table = Some scopes ∧ s ∈ scopes) ∧
  (∀ n scopes, assoc n table = Some scopes → s ∈ scopes →
               is_Some (m !! s)) ∧
  (∀ n scopes,
     assoc n table = Some scopes → s ∈ scopes →
     (∀ n' scopes', assoc n' table = Some scopes' → s ∈ scopes' → n' = n) →
     m !! s = Some n).
Proof.
  intros Hnd table m.
  assert (NoDup table.*1) as Htable.
  { apply dict_merge_NoDup, LANGUAGE_NAME_TO_SCOPES_NoDup. }
  split; [|split].
  - intros n Hn. destruct (scope_names_sound table s n Hn)
      as (scopes & Hin & Hs).
    exists scopes. split; [by apply elem_assoc|done].
  - intros n scopes Ha Hs.
    by apply (scope_names_complete table s n scopes (assoc_elem _ _ _ Ha)).
  - intros n scopes Ha Hs Huniq.
    by apply (scope_names_unique table s n scopes).
Qed.

Lemma scope_to_language_name_inverts_table_witness :
  let settings := Some [("cobol", ["source.cobol"; "source.python"])] in
  let table := get_language_name_to_scopes settings in
  let m := get_scope_to_language_name settings in
  (∀ n, m !! "source.python" = Some n →
        ∃ scopes, assoc n table = Some scopes ∧ "source.python" ∈ scopes) ∧
  (∀ n scopes, assoc n table = Some scopes → "source.python" ∈ scopes →
               is_Some (m !! "source.python")) ∧
  (∀ n scopes,
     assoc n table = Some scopes → "source.python" ∈ scopes →
     (∀ n' scopes', assoc n' table = Some scopes' →
                    "source.python" ∈ scopes' → n' = n) →
     m !! "source.python" = Some n).
Proof.
  intros settings.
  apply (scope_to_language_name_inverts_table settings "source.python").
  apply (bool_decide_unpack _). vm_compute. exact I.
Defined.

(** X21.  With the default settings the two tables agree: when
    [instantiate_languages] registers or leaves a language under a scope,
    either that registration was there before, or the name of the language
    is the one [get_scope_to_language_name] gives for the scope. *)
Theorem registered_language_matches_scope_table
    (language_names files : list string) (w : World)
    (s : ScopeType) (language : Language) :
  SCOPE_TO_LANGUAGE (instantiate_languages language_names files w) !! s
    = Some language →
  SCOPE_TO_LANGUAGE w !! s = Some language ∨
  get_scope_to_language_name None !! s = Some (language_name language).
Proof.
  unfold instantiate_languages. cbn [SCOPE_TO_LANGUAGE]. intros Hl.
  destruct (decide (Exists (λ name, assigns files name s)
                      (remove_dups language_names))) as [Hex|Hno].
  - right. apply Exists_exists in Hex as (name & Hin & Has).
    rewrite (lookup_instantiate_all _ _ _ s name Hin Has) in Hl.
    injection Hl as <-. cbn [language_name].
    destruct Has as (scopes & Ha & _ & Hs).
    apply (scope_names_unique _ s name scopes);
      [apply LANGUAGE_NAME_TO_SCOPES_NoDup|done..|].
    intros n' scopes' Ha' Hs'.
    eapply LANGUAGE_NAME_TO_SCOPES_disjoint; eauto using assoc_elem.
  - left. apply not_Exists_Forall in Hno; [|apply _].
    rewrite Forall_forall in Hno.
    by rewrite lookup_instantiate_none in Hl.
Qed.

Lemma registered_language_matches_scope_table_witness :
  SCOPE_TO_LANGUAGE empty_world !! "source.python" = Some python_language ∨
  get_scope_to_language_name None !! "source.python"
    = Some (language_name python_language).
Proof.
  apply (registered_language_matches_scope_table ["python"]
           ["language-python.so"] empty_world "source.python"
           python_language).
  reflexivity.
Defined.

(** ** C7: one entry per buffer, holding the latest write *)

Lemma entries_for_None (c : gmap Z TreeDict) b :
  c !! b = None → entries_for b c = [].
Proof.
  intros Hb. unfold entries_for.
  apply elem_of_nil_inv. intros [b' d'] Hin.
  apply list_elem_of_filter in Hin as [Heq Hin].
  apply elem_of_map_to_list in Hin. simpl in Heq. subst b'. congruence.
Qed.

Lemma run_cache_written monotonic events w :
  BUFFER_ID_TO_TREE w ⊆ written (trace w) →
  BUFFER_ID_TO_TREE (run monotonic events w)
    ⊆ written (trace (run monotonic events w)).
Proof.
  revert w. induction events as [|e rest IH]; intros w Hinv; [done|].
  simpl. apply IH. by apply handle_cache_written.
Qed.

Lemma lookup_stamps monotonic (b : Z) t c k i (bd : Z * TreeDict) :
  ((fun d => (b, d)) <$> stamps monotonic t c k) !! i = Some bd →
  bd = (b, mkTreeDict t (monotonic (c + i)%nat)).
Proof.
  unfold stamps. rewrite !list_lookup_fmap.
  destruct (seq c k !! i) as [n|] eqn:Hn; [|done].
  apply lookup_seq in Hn as [-> _]. by intros [= <-].
Qed.

(** The writes of a run, in order: the [k]-th of them carries the [k]-th
    reading of the clock taken since the run began. *)
Lemma run_writes_stamped monotonic events w :
  ∃ new, writes (trace (run monotonic events w)) = writes (trace w) ++ new ∧
         clock (run monotonic events w) = (clock w + length new)%nat ∧
         ∀ k bd, new !! k = Some bd →
                 updated_s bd.2 = monotonic (clock w + k)%nat.
Proof.
  revert w. induction events as [|e rest IH]; intros w.
  - exists []. simpl. split; [by rewrite app_nil_r|]. split; [lia|done].
  - simpl. destruct (IH (world_of (handle monotonic e w)))
      as (new2 & Hw2 & Hc2 & Hs2).
    destruct (handle_effect monotonic e w)
      as [(_ & Hk & Ht)|[(_ & Hk & Ht)|(v & t & k & _ & _ & _ & Hk & Ht)]].
    + exists new2. rewrite Hw2, Hc2, Ht, Hk. split; [done|].
      split; [done|]. intros i bd Hi. rewrite <- Hk. by apply Hs2.
    + exists new2. rewrite Hw2, Hc2, Ht, Hk. split; [done|].
      split; [done|]. intros i bd Hi. rewrite <- Hk. by apply Hs2.
    + exists (((fun d => (view_buffer_id v, d)) <$>
                 stamps monotonic t (clock w) k) ++ new2).
      rewrite Hw2, Hc2, Ht, Hk, app_assoc.
      split; [done|]. split.
      { rewrite length_app, length_fmap, stamps_length. lia. }
      intros i bd Hi. apply lookup_app_Some in Hi as [Hi|[Hge Hi]].
      * apply lookup_stamps in Hi. by subst bd.
      * rewrite length_fmap, stamps_length in Hge, Hi.
        rewrite (Hs2 _ _ Hi), Hk. f_equal. lia.
Qed.

(** C7, as stated, fails.  On a clock that returns the same reading, 32
    buffers, 1 to 32, are loaded and fill the cache; buffer 0 is then
    loaded.  Its entry is written, last of all writes, and the trim that
    follows evicts it: after the write for buffer 0 the cache has no entry
    for buffer 0. *)
Lemma written_buffer_without_entry_on_clock_tie :
  let window := Some (mkWindow 1) in
  let loads :=
    (fun i => Loaded (python_view (Z.of_nat i) "x" window)) <$> seq 1 32 in
  let w := run (fun _ => 7) loads python_world in
  let w' :=
    world_of (on_load_async (fun _ => 7) (python_view 0 "x" window) w) in
  last (writes (trace w')) =
    Some (0, mkTreeDict (mkTree python_language "x") 7) ∧
  entries_for 0 (BUFFER_ID_TO_TREE w') = [] ∧
  size (BUFFER_ID_TO_TREE w') = 32%nat.
Proof. vm_compute. done. Qed.

(** C7, amended.  After any run of callbacks, from a state whose cache
    holds latest writes only, the cache has at most one entry for a buffer,
    and an entry it has is the one written last for that buffer.  The
    [k]-th write of the run carries the [k]-th reading of the clock taken
    since the run began; so, the clock never going backwards, a later write
    never carries a smaller timestamp than an earlier one.  And right after
    a full parse or a text change that writes for the buffer, in a cache
    within its capacity, there is exactly one entry for it, the one just
    written, when the cache had room for it, the buffer had an entry, or
    some other entry is older than the new one. *)
Theorem cached_entry_is_unique_and_latest
    (monotonic : nat → Z) (events : list event) (w : World) (b : Z) :
  (∀ i j, (i ≤ j)%nat → monotonic i ≤ monotonic j) →
  BUFFER_ID_TO_TREE w ⊆ written (trace w) →
  let w' := run monotonic events w in
  match BUFFER_ID_TO_TREE w' !! b with
  | Some d =>
      entries_for b (BUFFER_ID_TO_TREE w') = [(b, d)] ∧
      written (trace w') !! b = Some d
  | None => entries_for b (BUFFER_ID_TO_TREE w') = []
  end ∧
  (∃ new,
     writes (trace w') = writes (trace w) ++ new ∧
     clock w' = (clock w + length new)%nat ∧
     (∀ k bd, new !! k = Some bd →
              updated_s bd.2 = monotonic (clock w + k)%nat) ∧
     (∀ i j bd1 bd2, (i ≤ j)%nat → new !! i = Some bd1 →
                     new !! j = Some bd2 →
                     updated_s bd1.2 ≤ updated_s bd2.2)) ∧
  (∀ view changes scope language,
     view_buffer_id view = b →
     check_scope w' (view_syntax view) = Some scope →
     SCOPE_TO_LANGUAGE w' !! scope = Some language →
     (size (BUFFER_ID_TO_TREE w') ≤ MAX_CACHED_TREES)%nat →
     let d1 := mkTreeDict (mkTree language (view_text view))
                 (monotonic (clock w')) in
     let d2 := mkTreeDict (tree_to_store w' view language)
                 (monotonic (clock w' + length changes - 1)%nat) in
     (outlives (BUFFER_ID_TO_TREE w') b d1 →
      entries_for b
        (BUFFER_ID_TO_TREE (world_of (parse_view monotonic view true w')))
        = [(b, d1)]) ∧
     (changes ≠ [] → outlives (BUFFER_ID_TO_TREE w') b d2 →
      entries_for b
        (BUFFER_ID_TO_TREE
           (world_of (on_text_changed_async monotonic view changes w')))
        = [(b, d2)])).
Proof.
  intros Hmono Hinv w'. split; [|split].
  - pose proof (run_cache_written monotonic events w Hinv) as Hsub.
    fold w' in Hsub.
    destruct (BUFFER_ID_TO_TREE w' !! b) as [d|] eqn:Hb.
    + split; [by apply entries_for_Some|].
      by apply (lookup_weaken _ _ _ _ Hb).
    + by apply entries_for_None.
  - destruct (run_writes_stamped monotonic events w) as (new & Hw & Hc & Hs).
    exists new. split; [done|]. split; [done|]. split; [done|].
    intros i j bd1 bd2 Hij H1 H2.
    rewrite (Hs _ _ H1), (Hs _ _ H2). apply Hmono. lia.
  - intros view changes scope language <- Hs Hl Hsz d1 d2. split.
    + intros Ho. apply entries_for_Some.
      rewrite (parse_view_supported _ _ _ _ _ _ Hs Hl).
      cbn [world_of trim_cached_trees BUFFER_ID_TO_TREE].
      rewrite (proj1 (proj2 (publish_tree_update_frame _ _ _ _))).
      rewrite cache_write_eq. cbn [BUFFER_ID_TO_TREE].
      by apply write_outlives.
    + intros Hne Ho. apply entries_for_Some.
      rewrite (on_text_changed_async_supported _ _ _ _ _ _ Hs Hl Hne).
      cbn [world_of trim_cached_trees BUFFER_ID_TO_TREE].
      rewrite (proj1 (proj2 (publish_tree_update_frame _ _ _ _))).
      cbn [BUFFER_ID_TO_TREE]. by apply write_outlives.
Qed.

Lemma cached_entry_is_unique_and_latest_witness :
  let window := Some (mkWindow 1) in
  let events :=
    [Loaded (python_view 4 "a" window);
     Loaded (python_view 5 "x" window);
     TextChanged (python_view 5 "xy" window) [mkTextChange 1 1 "y"];
     Loaded (python_view 6 "b" window)] in
  let view := python_view 5 "xyz" window in
  let changes := [mkTextChange 2 2 "z"; mkTextChange 0 0 ""] in
  let w' := run Z.of_nat events python_world in
  match BUFFER_ID_TO_TREE w' !! 5 with
  | Some d =>
      entries_for 5 (BUFFER_ID_TO_TREE w') = [(5, d)] ∧
      written (trace w') !! 5 = Some d
  | None => entries_for 5 (BUFFER_ID_TO_TREE w') = []
  end ∧
  (∃ new,
     writes (trace w') = writes (trace python_world) ++ new ∧
     clock w' = (clock python_world + length new)%nat ∧
     (∀ k bd, new !! k = Some bd →
              updated_s bd.2 = Z.of_nat (clock python_world + k)%nat) ∧
     (∀ i j bd1 bd2, (i ≤ j)%nat → new !! i = Some bd1 →
                     new !! j = Some bd2 →
                     updated_s bd1.2 ≤ updated_s bd2.2)) ∧
  entries_for 5
    (BUFFER_ID_TO_TREE (world_of (parse_view Z.of_nat view true w')))
    = [(5, mkTreeDict (mkTree python_language "xyz")
             (Z.of_nat (clock w')))] ∧
  entries_for 5
    (BUFFER_ID_TO_TREE
       (world_of (on_text_changed_async Z.of_nat view changes w')))
    = [(5, mkTreeDict (tree_to_store w' view python_language)
             (Z.of_nat (clock w' + length changes - 1)%nat))].
Proof.
  intros window events view changes w'.
  pose proof (cached_entry_is_unique_and_latest Z.of_nat events
                python_world 5) as H.
  cbv zeta in H. fold w' in H.
  destruct H as (HA & HB & HC).
  - intros i j Hij. lia.
  - apply map_empty_subseteq.
  - split; [exact HA|]. split; [exact HB|].
    destruct (HC view changes "source.python" python_language)
      as [H1 H2];
      [reflexivity | reflexivity | reflexivity | vm_compute; lia |].
    split.
    + apply H1. left. vm_compute. lia.
    + apply H2; [discriminate|]. left. vm_compute. lia.
Defined.
